(** * Pitch analysis and stable-note aggregation of the music practice app

    A shallow embedding of the pitch pipeline of
    [src/components/AudioPlayer.jsx]: segment building with its noise gate
    ([processBufferToSegments], [analyzeUserAudio]), the 3-tap median filter,
    the gap interpolation, the stable-note aggregation ([stableNotes],
    [processRun]) and the note / sargam labelling.

    Numbers.  JavaScript numbers are modelled as exact rationals [Q]: every
    sum, product, quotient and comparison of the source is the exact one.
    [Math.log2] only occurs inside [Math.round(69 + 12 * Math.log2(f / 440))];
    that integer is computed exactly by integer arithmetic ([roundMidi]) and
    shown equal to the real-number formula ([roundMidi_real]). *)

From Stdlib Require Import String Ascii DecimalString.
From Stdlib Require Import QArith Qround Qpower Qminmax Qabs ZArith List Bool.
From Stdlib Require Import Reals Qreals Lia Psatz Permutation.
Import ListNotations.

Local Open Scope Q_scope.

(** ** JavaScript numbers as rationals *)

(** [a < b] on numbers. *)
Definition Qltb (a b : Q) : bool :=
  match a ?= b with Lt => true | _ => false end.

(** [Math.round x], the integer [floor (x + 1/2)] (ties go up). *)
Definition jsRound (x : Q) : Z := Qfloor (x + (1 # 2)).

(** [Math.max(a, b)] on integers. *)
Definition jsMax (a b : Z) : Z := Z.max a b.

(** ** Note helpers *)

Definition NOTES : list string :=
  ["C"; "C#"; "D"; "D#"; "E"; "F"; "F#"; "G"; "G#"; "A"; "A#"; "B"]%string.

Definition SARGAM_MAPPING : list string :=
  ["Sa"; "re"; "Re"; "ga"; "Ga"; "Ma"; "MA"; "Pa"; "dha"; "Dha"; "ni"; "Ni"]%string.

(** The value of [getMidi]: [null] for a falsy frequency, [NaN] when the
    logarithm is undefined, an integer otherwise. *)
Inductive MidiVal : Type :=
| MNull
| MNaN
| MInt (m : Z).

(** [a === b] on such values: [NaN] is equal to nothing. *)
Definition strictEq (a b : MidiVal) : bool :=
  match a, b with
  | MNull, MNull => true
  | MInt x, MInt y => Z.eqb x y
  | _, _ => false
  end.

(** [floor (log2 q)] for a positive rational [q]: the exponent is
    [log2 (numerator) - log2 (denominator)] or one less. *)
Definition floorLog2 (q : Q) : Z :=
  let k := (Z.log2 (Qnum q) - Z.log2 (Zpos (Qden q)))%Z in
  if Qle_bool (2 ^ k) q then k else (k - 1)%Z.

(** [Math.round(69 + 12 * Math.log2(x))] for [x > 0], exactly:
    [floor (69 + 12 log2 x + 1/2) = floor ((139 + log2 (x^24)) / 2)]. *)
Definition roundMidi (x : Q) : Z :=
  ((139 + floorLog2 (x ^ 24)) / 2)%Z.

(** [getMidi]: [if (!freq) return null; return Math.round(69 + 12 * Math.log2(freq / 440))]. *)
Definition getMidi (freq : Q) : MidiVal :=
  if Qeq_bool freq 0 then MNull
  else if Qltb freq 0 then MNaN
  else MInt (roundMidi (freq / 440)).

(** ** Segments and events *)

Module Segment.
Record t : Type := mk { startTime : Q; endTime : Q; freq : Q }.
End Segment.

Module Event.
Record t : Type := mk {
  startTime : Q;
  endTime : Q;
  avgFreq : Q;
  midi : MidiVal;
  label : string;
  fullNote : string;
  displayLabel : string
}.
End Event.

(** The two props of the component that the aggregation reads. *)
Record LabelConfig : Type := mkLabelConfig { showSargam : bool; rootKey : string }.

(** ** Labelling *)

(** Decimal rendering of an integer, as a template string does. *)
Definition stringOfZ (z : Z) : string := NilZero.string_of_int (Z.to_int z).

(** [midi % 12]: [null] counts as [0], [NaN] stays [NaN], and the remainder
    has the sign of [midi]. *)
Definition midiRem12 (midi : MidiVal) : MidiVal :=
  match midi with
  | MNull => MInt 0
  | MNaN => MNaN
  | MInt m => MInt (Z.rem m 12)
  end.

(** [table[i]]: [undefined] ([None]) unless [i] is an index of the table. *)
Definition jsIndex (table : list string) (i : MidiVal) : option string :=
  match i with
  | MInt k => if (k <? 0)%Z then None else nth_error table (Z.to_nat k)
  | _ => None
  end.

(** [table.indexOf(x)], [-1] when absent; [undefined] is never in a table
    of strings. *)
Fixpoint indexFrom (table : list string) (x : string) (i : Z) : Z :=
  match table with
  | [] => (-1)%Z
  | y :: rest => if String.eqb y x then i else indexFrom rest x (i + 1)%Z
  end.

Definition indexOf (table : list string) (x : option string) : Z :=
  match x with
  | Some s => indexFrom table s 0%Z
  | None => (-1)%Z
  end.

(** How a template string prints a table entry and an octave. *)
Definition showEntry (x : option string) : string :=
  match x with Some s => s | None => "undefined"%string end.

(** [Math.floor(midi / 12) - 1], printed. *)
Definition showOctave (midi : MidiVal) : string :=
  match midi with
  | MNull => stringOfZ (-1)
  | MNaN => "NaN"%string
  | MInt m => stringOfZ (m / 12 - 1)
  end.

(** A non-empty string is truthy. *)
Definition truthy (s : string) : bool := negb (String.eqb s EmptyString).

(** The label computed inside [processRun]. *)
Definition sargamLabel (cfg : LabelConfig) (midi : MidiVal) (fullNote : string) : string :=
  if showSargam cfg && truthy (rootKey cfg) then
    let noteOnly := jsIndex NOTES (midiRem12 midi) in
    let rootIndex := indexOf NOTES (Some (rootKey cfg)) in
    if negb (rootIndex =? -1)%Z then
      let interval := Z.rem (indexOf NOTES noteOnly - rootIndex + 12) 12 in
      showEntry (jsIndex SARGAM_MAPPING (MInt interval))
    else fullNote
  else fullNote.

(** ** The stable-note aggregator *)

(** [run.reduce((sum, s) => sum + s.freq, 0)]. *)
Definition sumFreq (run : list Segment.t) : Q :=
  fold_left (fun sum s => sum + Segment.freq s) run 0.

(** [processRun]: the events after closing [run]. *)
Definition processRun (cfg : LabelConfig) (events : list Event.t)
    (run : list Segment.t) : list Event.t :=
  match run with
  | [] => events
  | first :: _ =>
      let startTime := Segment.startTime first in
      let endTime := Segment.endTime (last run first) in
      let duration := endTime - startTime in
      if Qltb (15 # 100) duration then
        let avgFreq := sumFreq run / inject_Z (Z.of_nat (List.length run)) in
        let midi := getMidi avgFreq in
        let noteName := jsIndex NOTES (midiRem12 midi) in
        let fullNote := (showEntry noteName ++ showOctave midi)%string in
        let label := sargamLabel cfg midi fullNote in
        events ++ [Event.mk startTime endTime avgFreq midi label fullNote label]
      else events
  end.

(** The test of the loop: same note and close in time. *)
Definition continues (prev seg : Segment.t) : bool :=
  strictEq (getMidi (Segment.freq prev)) (getMidi (Segment.freq seg))
  && Qltb (Segment.startTime seg - Segment.endTime prev) (1 # 10).

(** One iteration of the loop over [pitchSegments]; the state is
    [(events, currentRun)]. *)
Definition aggStep (cfg : LabelConfig) (st : list Event.t * list Segment.t)
    (seg : Segment.t) : list Event.t * list Segment.t :=
  let (events, currentRun) := st in
  match currentRun with
  | [] => (events, [seg])
  | first :: _ =>
      let prev := last currentRun first in
      if continues prev seg then (events, currentRun ++ [seg])
      else (processRun cfg events currentRun, [seg])
  end.

(** [stableNotes]. *)
Definition stableNotes (cfg : LabelConfig) (pitchSegments : list Segment.t)
    : list Event.t :=
  match pitchSegments with
  | [] => []
  | _ =>
      let (events, currentRun) := fold_left (aggStep cfg) pitchSegments ([], []) in
      processRun cfg events currentRun
  end.


(** ** Audio buffers and the external pitch detector *)

Module AudioBuffer.
Record t : Type := mk { sampleRate : Q; channelData : list Q }.
End AudioBuffer.

(** The configuration object handed to [YIN]; an absent field is [None]. *)
Record YinConfig : Type := mkYinConfig {
  yinSampleRate : Q;
  threshold : option Q;
  probabilityThreshold : option Q
}.

(** The detector made by [YIN(config)]: a frequency or [null] per chunk. *)
Definition Detector : Type := YinConfig -> list Q -> option Q.

(** [data.slice(i, j)]. *)
Definition slice (data : list Q) (i j : nat) : list Q :=
  firstn (j - i) (skipn i data).

(** [for (let i = start; cond(i); i += stepSize) out.push(body(i))].  The
    fuel bounds the number of iterations; [frameLoop_enough] shows that the
    callers give enough of it. *)
Fixpoint frameLoop {A : Type} (fuel : nat) (cond : nat -> bool) (stepSize : nat)
    (body : nat -> A) (i : nat) : list A :=
  match fuel with
  | O => []
  | S fuel' =>
      if cond i then body i :: frameLoop fuel' cond stepSize body (i + stepSize)
      else []
  end.

(** [!freq || freq < lo || freq > hi]: the frame is dropped. *)
Definition gatedOut (lo hi : Q) (freq : option Q) : bool :=
  match freq with
  | None => true
  | Some f => Qeq_bool f 0 || Qltb f lo || Qltb hi f
  end.

(** The frequency of a detection that passed the gate. *)
Definition freqValue (freq : option Q) : Q :=
  match freq with Some f => f | None => 0 end.

Definition natQ (n : nat) : Q := inject_Z (Z.of_nat n).

(** ** File analysis: [processBufferToSegments] *)

Definition bufferSize : nat := 2048.

(** The chunks handed to the detector, one call per chunk. *)
Definition fileChunks (buffer : AudioBuffer.t) : list (list Q) :=
  let channelData := AudioBuffer.channelData buffer in
  frameLoop (List.length channelData)
    (fun i => (i <? List.length channelData)%nat) bufferSize
    (fun i => slice channelData i (i + bufferSize)) 0.

(** The second loop: one segment per frame that passes the gate; the state
    is the list of segments pushed so far. *)
Definition pushFileSegment (timePerFrame : Q) (pitches : list (option Q))
    (segments : list Segment.t) (i : nat) : list Segment.t :=
  let freq := nth i pitches None in
  if gatedOut 60 1100 freq then segments
  else segments ++ [Segment.mk (natQ i * timePerFrame)
                               ((natQ i + 1) * timePerFrame)
                               (freqValue freq)].

Definition fileSegments (sampleRate : Q) (pitches : list (option Q))
    : list Segment.t :=
  let timePerFrame := natQ bufferSize / sampleRate in
  fold_left (pushFileSegment timePerFrame pitches)
    (seq 0 (List.length pitches)) [].

Definition processBufferToSegments (YIN : Detector) (buffer : AudioBuffer.t)
    : list (option Q) * list Segment.t :=
  let detectPitch := YIN (mkYinConfig (AudioBuffer.sampleRate buffer) None None) in
  let pitches := map detectPitch (fileChunks buffer) in
  (pitches, fileSegments (AudioBuffer.sampleRate buffer) pitches).

(** ** Recording analysis: [analyzeUserAudio] *)

Definition windowSize : nat := 2048.
Definition hopSize : nat := 512.

(** Step 1, peak normalisation of the samples. *)
Definition maxAmp (rawData : list Q) : Q :=
  fold_left (fun m x => if Qltb m (Qabs x) then Qabs x else m) rawData 0.

Definition normalize (rawData : list Q) : list Q :=
  if Qltb (1 # 1000) (maxAmp rawData) then
    let gain := (9 # 10) / maxAmp rawData in
    map (fun x => x * gain) rawData
  else rawData.

(** Step 2, the sample offsets of the frames and the chunks detected. *)
Module Frame.
Record t : Type := mk { time : Q; freq : option Q }.
End Frame.

Definition userOffsets (rawData : list Q) : list nat :=
  frameLoop (List.length rawData)
    (fun i => (i + windowSize <=? List.length rawData)%nat) hopSize
    (fun i => i) 0.

Definition userChunks (rawData : list Q) : list (list Q) :=
  map (fun i => slice rawData i (i + windowSize)) (userOffsets rawData).

Definition userPitches (YIN : Detector) (sampleRate : Q) (rawData : list Q)
    : list Frame.t :=
  let detectPitch :=
    YIN (mkYinConfig sampleRate (Some (15 # 100)) (Some (5 # 100))) in
  map (fun i => Frame.mk (natQ i / sampleRate)
                         (detectPitch (slice rawData i (i + windowSize))))
      (userOffsets rawData).

(** Step 3, raw segments. *)
Definition pushRawSegment (timePerHop : Q) (pitches : list Frame.t)
    (rawSegments : list Segment.t) (i : nat) : list Segment.t :=
  let p := nth i pitches (Frame.mk 0 None) in
  if gatedOut 50 1200 (Frame.freq p) then rawSegments
  else rawSegments ++ [Segment.mk (Frame.time p) (Frame.time p + timePerHop)
                                  (freqValue (Frame.freq p))].

Definition buildRawSegments (timePerHop : Q) (pitches : list Frame.t)
    : list Segment.t :=
  fold_left (pushRawSegment timePerHop pitches) (seq 0 (List.length pitches)) [].

(** [[prev, curr, next].sort((a, b) => a - b)]: a stable insertion sort. *)
Fixpoint insertNum (x : Q) (sorted : list Q) : list Q :=
  match sorted with
  | [] => [x]
  | y :: rest => if Qltb x y then x :: y :: rest else y :: insertNum x rest
  end.

Definition sortNum (l : list Q) : list Q :=
  fold_left (fun sorted x => insertNum x sorted) l [].

Definition noSegment : Segment.t := Segment.mk 0 0 0.

(** Step 4, the median filter, for index [i] of [rawSegments]. *)
Definition smoothAt (rawSegments : list Segment.t) (i : nat) : Segment.t :=
  let at_ k := nth k rawSegments noSegment in
  let prev := if (0 <? i)%nat then Segment.freq (at_ (i - 1)%nat)
              else Segment.freq (at_ i) in
  let curr := Segment.freq (at_ i) in
  let next := if (i <? List.length rawSegments - 1)%nat
              then Segment.freq (at_ (i + 1)%nat) else curr in
  let sorted := sortNum [prev; curr; next] in
  Segment.mk (Segment.startTime (at_ i)) (Segment.endTime (at_ i))
             (nth 1 sorted 0).

Definition medianFilter (rawSegments : list Segment.t) : list Segment.t :=
  map (smoothAt rawSegments) (seq 0 (List.length rawSegments)).

(** Step 5, the synthetic segments pushed after index [i] of
    [smoothedSegments]. *)
Definition gapSegments (timePerHop : Q) (cur next : Segment.t) : list Segment.t :=
  let gap := Segment.startTime next - Segment.endTime cur in
  if Qltb 0 gap && Qltb gap (15 # 10) then
    let steps := jsMax 1 (jsRound (gap / timePerHop)) in
    map (fun s : nat =>
           let t := natQ s / (inject_Z steps + 1) in
           Segment.mk (Segment.endTime cur + (natQ s - 1) * timePerHop)
                      (Segment.endTime cur + natQ s * timePerHop)
                      (Segment.freq cur * (1 - t) + Segment.freq next * t))
        (seq 1 (Z.to_nat steps))
  else [].

Definition fillAt (timePerHop : Q) (smoothedSegments : list Segment.t) (i : nat)
    : list Segment.t :=
  let at_ k := nth k smoothedSegments noSegment in
  at_ i ::
  (if (i <? List.length smoothedSegments - 1)%nat
   then gapSegments timePerHop (at_ i) (at_ (i + 1)%nat)
   else []).

Definition fillGaps (timePerHop : Q) (smoothedSegments : list Segment.t)
    : list Segment.t :=
  flat_map (fillAt timePerHop smoothedSegments)
           (seq 0 (List.length smoothedSegments)).

Definition analyzeUserAudio (YIN : Detector) (buffer : AudioBuffer.t)
    : list Segment.t :=
  let sampleRate := AudioBuffer.sampleRate buffer in
  let rawData := normalize (AudioBuffer.channelData buffer) in
  let timePerHop := natQ hopSize / sampleRate in
  let pitches := userPitches YIN sampleRate rawData in
  let rawSegments := buildRawSegments timePerHop pitches in
  let smoothedSegments := medianFilter rawSegments in
  fillGaps timePerHop smoothedSegments.

(** [stableNotes.find(e => time >= e.startTime && time <= e.endTime)]. *)
Definition activeAt (time : Q) (e : Event.t) : bool :=
  Qle_bool (Event.startTime e) time && Qle_bool time (Event.endTime e).

Definition findActive (events : list Event.t) (time : Q) : option Event.t :=
  find (activeAt time) events.

(** ** Vocabulary of the statements *)

(** Adjacent elements of a list are related by [R]. *)
Fixpoint chain {A : Type} (R : A -> A -> Prop) (l : list A) : Prop :=
  match l with
  | a :: (b :: _) as rest => R a b /\ chain R rest
  | _ => True
  end.

(** The continuity condition in words: same MIDI number and a gap below
    0.1 s. *)
Definition linked (prev seg : Segment.t) : Prop :=
  strictEq (getMidi (Segment.freq prev)) (getMidi (Segment.freq seg)) = true
  /\ Segment.startTime seg - Segment.endTime prev < 1 # 10.

(** The runs that the walk closes out, in order: the loop of [stableNotes]
    with "close out" recorded instead of turned into an event. *)
Definition runStep (st : list (list Segment.t) * list Segment.t)
    (seg : Segment.t) : list (list Segment.t) * list Segment.t :=
  let (runs, currentRun) := st in
  match currentRun with
  | [] => (runs, [seg])
  | first :: _ =>
      if continues (last currentRun first) seg then (runs, currentRun ++ [seg])
      else (runs ++ [currentRun], [seg])
  end.

Definition runsOf (segs : list Segment.t) : list (list Segment.t) :=
  let (runs, currentRun) := fold_left runStep segs ([], []) in
  match currentRun with
  | [] => runs
  | _ => runs ++ [currentRun]
  end.

(** A run is non-empty and continuous. *)
Definition isRun (run : list Segment.t) : Prop :=
  run <> [] /\ chain linked run.

(** Two consecutive runs are separated by a broken condition. *)
Definition separated (r1 r2 : list Segment.t) : Prop :=
  ~ linked (last r1 noSegment) (hd noSegment r2).

(** Span of a run: last end minus first start. *)
Definition runSpan (run : list Segment.t) : Q :=
  Segment.endTime (last run noSegment) - Segment.startTime (hd noSegment run).

(** The unweighted arithmetic mean of the frequencies of a run. *)
Definition sumSpec (run : list Segment.t) : Q :=
  fold_right (fun s acc => Segment.freq s + acc) 0 run.

Definition meanFreq (run : list Segment.t) : Q :=
  sumSpec run / natQ (List.length run).

(** The noise-gate rule in words: frame [i] yields no segment when its
    frequency is absent or outside [[lo, hi]], and otherwise the one segment
    [[i * framePeriod, (i + 1) * framePeriod)] with the frequency as is. *)
Definition inGate (lo hi f : Q) : bool := Qle_bool lo f && Qle_bool f hi.

Definition frameSegment (framePeriod lo hi : Q) (i : nat) (freq : option Q)
    : list Segment.t :=
  match freq with
  | None => []
  | Some f =>
      if inGate lo hi f
      then [Segment.mk (natQ i * framePeriod) ((natQ i + 1) * framePeriod) f]
      else []
  end.


(** What the loop of [stableNotes] and the recording of its runs share
    after any prefix [segs] of the segments. *)
Record walkInv (cfg : LabelConfig) (segs : list Segment.t)
    (events : list Event.t) (runs : list (list Segment.t))
    (cur : list Segment.t) : Prop := {
  inv_concat : concat runs ++ cur = segs;
  inv_runs : Forall isRun runs;
  inv_cur : chain linked cur;
  inv_sep : chain separated (runs ++ [cur]);
  inv_start : cur = [] -> runs = [] /\ segs = [];
  inv_events : events = fold_left (processRun cfg) runs []
}.

(** The segment that the raw-segment loop pushes for a frame, if any. *)
Definition rawSegmentOf (timePerHop : Q) (p : Frame.t) : list Segment.t :=
  if gatedOut 50 1200 (Frame.freq p) then []
  else [Segment.mk (Frame.time p) (Frame.time p + timePerHop)
                   (freqValue (Frame.freq p))].

(** [m] is the median of [a], [b], [c]: the middle one once they are put
    in order. *)
Definition isMedian3 (m a b c : Q) : Prop :=
  exists x z, Permutation [x; m; z] [a; b; c] /\ x <= m /\ m <= z.





(** Segment [s] is cell [k] of the grid of period [h]. *)
Definition onGrid (h : Q) (k : nat) (s : Segment.t) : Prop :=
  Segment.startTime s == natQ k * h /\ Segment.endTime s == (natQ k + 1) * h.

(** Strictly increasing cell numbers, none below [lo]. *)
Fixpoint incrFrom (lo : nat) (ks : list nat) : Prop :=
  match ks with
  | [] => True
  | k :: rest => (lo <= k)%nat /\ incrFrom (S k) rest
  end.

(** Segments on increasing cells of a grid. *)
Definition gridded (h : Q) (lo : nat) (l : list Segment.t) : Prop :=
  exists ks, Forall2 (onGrid h) ks l /\ incrFrom lo ks.


(** A detector for examples: 440 Hz for a chunk that starts with a positive
    sample, 880 Hz otherwise. *)
Definition toneDetector : Detector :=
  fun _ chunk =>
    match chunk with
    | [] => None
    | x :: _ => if Qltb 0 x then Some 440 else Some 880
    end.

(** Two frames at 8000 Hz: one of positive samples, one of negative ones. *)
Definition twoToneBuffer : AudioBuffer.t :=
  AudioBuffer.mk 8000 (repeat (1 # 2) 2048 ++ repeat (- (1 # 2)) 2048).


(** A frequency that a noise gate of either pipeline lets through. *)
Definition audible (s : Segment.t) : Prop :=
  50 <= Segment.freq s /\ Segment.freq s <= 1200.

(** A detector that never finds a pitch. *)
Definition silentDetector : Detector := fun _ _ => None.
(** What an event says apart from its labels. *)
Definition eventCore (e : Event.t) : Q * Q * Q * MidiVal * string :=
  (Event.startTime e, Event.endTime e, Event.avgFreq e, Event.midi e,
   Event.fullNote e).
(** ** The note display *)

(** The value of [getNote]: [null] for a falsy frequency, a string, or
    [NaN] when the table entry is [undefined] ([undefined + octave]). *)
Inductive JsNote : Type :=
| NoteNull
| NoteNaN
| NoteStr (s : string).

(** [getNote], the note name of a raw detection. *)
Definition getNote (frequency : Q) : JsNote :=
  if Qeq_bool frequency 0 then NoteNull
  else if Qltb frequency 0 then NoteNaN
  else
    let pitch := roundMidi (frequency / 440) in
    let octave := (pitch / 12 - 1)%Z in
    let noteIndex := Z.rem pitch 12 in
    match jsIndex NOTES (MInt noteIndex) with
    | Some name => NoteStr (name ++ stringOfZ octave)
    | None => NoteNaN
    end.

Module PitchUpdate.
Record t : Type := mk { frequency : Q; note : JsNote }.
End PitchUpdate.



(** [c] is one of the characters [0-9]. *)
Definition isDigit (c : ascii) : bool :=
  (48 <=? nat_of_ascii c)%nat && (nat_of_ascii c <=? 57)%nat.

(** [s.replace(/[0-9]/, "")]: the first digit is removed. *)
Fixpoint removeFirstDigit (s : string) : string :=
  match s with
  | EmptyString => EmptyString
  | String c rest => if isDigit c then rest else String c (removeFirstDigit rest)
  end.

(** [s.replace(/[0-9]/g, '')]: every digit is removed. *)
Fixpoint removeDigits (s : string) : string :=
  match s with
  | EmptyString => EmptyString
  | String c rest =>
      if isDigit c then removeDigits rest else String c (removeDigits rest)
  end.

Module NoteObj.
Record t : Type := mk { note : string; frequency : Q }.
End NoteObj.

Module Display.
Record t : Type := mk { main : string; sub : string }.
End Display.

(** [`${Math.round(frequency)} Hz`]. *)
Definition hertz (frequency : Q) : string :=
  (stringOfZ (jsRound frequency) ++ " Hz")%string.

(** [getDisplayNote] of the application, for the current note set by
    [onPitchUpdate]; [sargam] and [root] are its [showSargam] and [rootKey]. *)
Definition getDisplayNote (sargam : bool) (root : string)
    (noteObj : option NoteObj.t) : Display.t :=
  match noteObj with
  | None => Display.mk "--" "Listening..."
  | Some o =>
      let note := NoteObj.note o in
      let frequency := NoteObj.frequency o in
      if negb sargam then Display.mk note (hertz frequency)
      else
        let noteName := removeFirstDigit note in
        let rootIndex := indexOf NOTES (Some root) in
        let noteIndex := indexOf NOTES (Some noteName) in
        if (rootIndex =? -1)%Z || (noteIndex =? -1)%Z
        then Display.mk note "Unknown"
        else
          let interval := Z.rem (noteIndex - rootIndex + 12) 12 in
          let sargamNote := showEntry (jsIndex SARGAM_MAPPING (MInt interval)) in
          Display.mk sargamNote (note ++ " / " ++ hertz frequency)
  end.

(** What [checkPitch] passes to [onPitchUpdate] for an active event. *)
Definition noteOfEvent (e : Event.t) : NoteObj.t :=
  NoteObj.mk (Event.fullNote e) (Event.avgFreq e).

(** The full note name of a MIDI number, as [processRun] builds it. *)
Definition noteString (m : Z) : string :=
  (showEntry (jsIndex NOTES (midiRem12 (MInt m))) ++ showOctave (MInt m))%string.

(** The MIDI numbers of frequencies between 50 and 1200 Hz. *)
Definition midiRange : list Z := map Z.of_nat (seq 31 56).

(** The display and the label of [processRun] agree for note [m] and a
    root key. *)
Definition displayAgrees (root : string) (m : Z) : bool :=
  String.eqb
    (Display.main (getDisplayNote true root
                     (Some (NoteObj.mk (noteString m) 0))))
    (sargamLabel (mkLabelConfig true root) (MInt m) (noteString m)).

(** ** Drawing the pitch graph *)

(** [getFreqY]: the canvas height of a frequency on a logarithmic axis from
    65.41 Hz at the bottom to 1046.50 Hz at the top.  [Math.log2] is the
    parameter [log2]. *)
Definition minFreq : Q := 6541 # 100.
Definition maxFreq : Q := 104650 # 100.

Definition getFreqY (log2 : Q -> Q) (freq height : Q) : Q :=
  let logMin := log2 minFreq in
  let logMax := log2 maxFreq in
  let scaleY := height / (logMax - logMin) in
  let logFreq := log2 freq in
  height - ((logFreq - logMin) * scaleY).

Module Point.
Record t : Type := mk { x : Q; y : Q }.
End Point.

(** One iteration of the loop that cuts the segments into curve paths; the
    state is [(allPaths, currentPath, lastEndTime)] and [mkPoint] is the
    point [{ x, y }] computed for the segment. *)
Definition pathStep {A : Type} (mkPoint : Segment.t -> A)
    (st : list (list A) * list A * Q) (seg : Segment.t)
    : list (list A) * list A * Q :=
  let '(allPaths, currentPath, lastEndTime) := st in
  if (0 <? List.length currentPath)%nat
     && Qltb (Segment.startTime seg - lastEndTime) 3
  then (allPaths, currentPath ++ [mkPoint seg], Segment.endTime seg)
  else ((if (0 <? List.length currentPath)%nat
         then allPaths ++ [currentPath] else allPaths),
        [mkPoint seg], Segment.endTime seg).

Definition buildPaths {A : Type} (mkPoint : Segment.t -> A)
    (segments : list Segment.t) : list (list A) :=
  let '(allPaths, currentPath, _) :=
    fold_left (pathStep mkPoint) segments ([], [], - (1)) in
  if (0 <? List.length currentPath)%nat then allPaths ++ [currentPath]
  else allPaths.

(** The point of a segment of the song (green line) and of the recording
    (orange line, shifted by the recording offset). *)
Definition pitchPoint (log2 : Q -> Q) (pxPerSec height : Q) (seg : Segment.t)
    : Point.t :=
  Point.mk (Segment.startTime seg * pxPerSec)
           (getFreqY log2 (Segment.freq seg) height).

Definition userPoint (log2 : Q -> Q) (pxPerSec height offset : Q)
    (seg : Segment.t) : Point.t :=
  Point.mk ((Segment.startTime seg + offset) * pxPerSec)
           (getFreqY log2 (Segment.freq seg) height).

(** The calls made on the canvas context. *)
Inductive CanvasCmd : Type :=
| BeginPath
| MoveTo (x y : Q)
| LineTo (x y : Q)
| BezierCurveTo (cp1x cp1y cp2x cp2y x y : Q)
| Stroke.

Definition noPoint : Point.t := Point.mk 0 0.

(** The body of the loop of [drawSmoothCurve] for index [i]. *)
Definition bezierAt (points : list Point.t) (tension : Q) (i : nat) : CanvasCmd :=
  let at_ k := nth k points noPoint in
  let p0 := if (0 <? i)%nat then at_ (i - 1)%nat else at_ 0%nat in
  let p1 := at_ i in
  let p2 := at_ (i + 1)%nat in
  let p3 := if negb (i =? List.length points - 2)%nat
            then at_ (i + 2)%nat else p2 in
  let cp1x := Point.x p1 + (Point.x p2 - Point.x p0) / 6 * tension in
  let cp1y := Point.y p1 + (Point.y p2 - Point.y p0) / 6 * tension in
  let cp2x := Point.x p2 - (Point.x p3 - Point.x p1) / 6 * tension in
  let cp2y := Point.y p2 - (Point.y p3 - Point.y p1) / 6 * tension in
  BezierCurveTo cp1x cp1y cp2x cp2y (Point.x p2) (Point.y p2).

(** [drawSmoothCurve]: the calls it makes, in order. *)
Definition drawSmoothCurve (points : list Point.t) (tension : Q)
    : list CanvasCmd :=
  if (List.length points <? 2)%nat then []
  else
    let at_ k := nth k points noPoint in
    BeginPath :: MoveTo (Point.x (at_ 0%nat)) (Point.y (at_ 0%nat)) ::
    (if (List.length points =? 2)%nat
     then [LineTo (Point.x (at_ 1%nat)) (Point.y (at_ 1%nat)); Stroke]
     else map (bezierAt points tension) (seq 0 (List.length points - 1))
          ++ [Stroke]).

(** Where a call leaves the pen. *)
Definition penAfter (c : CanvasCmd) : list Point.t :=
  match c with
  | MoveTo x y | LineTo x y | BezierCurveTo _ _ _ _ x y => [Point.mk x y]
  | BeginPath | Stroke => []
  end.

(** The segments behind the paths: the same loop with the segment itself
    as its point. *)
Definition pathGroups (segments : list Segment.t) : list (list Segment.t) :=
  buildPaths (fun seg => seg) segments.

(** Neighbours on one path, and the gap between two paths. *)
Definition near (a b : Segment.t) : Prop :=
  Segment.startTime b - Segment.endTime a < 3.

Definition apart (g1 g2 : list Segment.t) : Prop :=
  3 <= Segment.startTime (hd noSegment g2) - Segment.endTime (last g1 noSegment).

(** ** The note axis and the floating badges *)

Module AxisRow.
Record t : Type := mk {
  fullNote : string;
  isActive : bool;
  label : string;
  isSa : bool;
  shown : bool
}.
End AxisRow.

(** The row of the axis overlay for index [i] of [Array.from({ length: 49 })];
    [activeNote] is the state set by [checkPitch], [None] for [null]. *)
Definition axisRow (cfg : LabelConfig) (activeNote : option string) (i : nat)
    : AxisRow.t :=
  let midi := (36 + Z.of_nat i)%Z in
  let noteName := showEntry (jsIndex NOTES (midiRem12 (MInt midi))) in
  let octave := showOctave (MInt midi) in
  let fullNote := (noteName ++ octave)%string in
  let isActive := match activeNote with
                  | Some a => String.eqb a fullNote
                  | None => false
                  end in
  let '(label, isSa) :=
    if showSargam cfg && truthy (rootKey cfg) then
      let rootIndex := indexOf NOTES (Some (rootKey cfg)) in
      if negb (rootIndex =? -1)%Z then
        let interval := Z.rem (Z.rem midi 12 - rootIndex + 12) 12 in
        let swara := showEntry (jsIndex SARGAM_MAPPING (MInt interval)) in
        ((swara ++ octave)%string, String.eqb swara "Sa")
      else (fullNote, false)
    else (fullNote, false) in
  AxisRow.mk fullNote isActive label isSa
    (negb (negb isActive && negb isSa && negb (Z.rem midi 2 =? 0)%Z)).

Definition axisRows (cfg : LabelConfig) (activeNote : option string)
    : list AxisRow.t :=
  map (axisRow cfg activeNote) (seq 0 49).

(** What [checkPitch] stores in [activeNote] at playback time [time]. *)
Definition activeNoteAt (events : list Event.t) (time : Q) : option string :=
  option_map Event.fullNote (findActive events time).

(** The text of the floating badge of an event. *)
Definition badgeLabel (e : Event.t) : string :=
  removeDigits (Event.displayLabel e).

(** The horizontal position of the badge. *)
Definition badgeX (pxPerSec : Q) (e : Event.t) : Q :=
  (Event.startTime e + (Event.endTime e - Event.startTime e) / 2) * pxPerSec.

(** Whether the labels are swaras: sargam is on and the root key is a note. *)
Definition swaraMode (cfg : LabelConfig) : bool :=
  showSargam cfg && truthy (rootKey cfg)
  && negb (indexOf NOTES (Some (rootKey cfg)) =? -1)%Z.

(** Only row [m - 36] carries the name of note [m]. *)
Definition oneRowPerNote (m : Z) : bool :=
  forallb (fun i => Bool.eqb (String.eqb (noteString m)
                                (noteString (36 + Z.of_nat i)))
                             (m =? 36 + Z.of_nat i)%Z)
          (seq 0 49).

(** The name of note [m] without its octave. *)
Definition noteName (m : Z) : string :=
  showEntry (jsIndex NOTES (midiRem12 (MInt m))).

(** With the root key [root], the badge of note [m] is its swara. *)
Definition badgeKeepsSwara (root : string) (m : Z) : bool :=
  let cfg := mkLabelConfig true root in
  swaraMode cfg
  && String.eqb (removeDigits (sargamLabel cfg (MInt m) (noteString m)))
                (sargamLabel cfg (MInt m) (noteString m)).

(** Without its digits the full name of note [m] is its note name. *)
Definition badgeDropsOctave (m : Z) : bool :=
  String.eqb (removeDigits (noteString m)) (noteName m).

(** * Properties *)

(** ** The model at work *)

Example getMidi_samples :
  (getMidi 440, getMidi 880, getMidi 220, getMidi 225, getMidi 0, getMidi (-3))
  = (MInt 69, MInt 81, MInt 57, MInt 57, MNull, MNaN).
Proof. vm_compute. reflexivity. Qed.

(** An octave jump in a file: two events, A4 then A5, MIDI numbers 12 apart,
    the first ending where the second starts. *)
Example two_tone_file_events :
  map (fun e => (Event.fullNote e, Event.midi e,
                 Qred (Event.startTime e), Qred (Event.endTime e)))
      (stableNotes (mkLabelConfig false "C")
         (snd (processBufferToSegments toneDetector twoToneBuffer)))
  = [("A4"%string, MInt 69, 0, 32 # 125);
     ("A5"%string, MInt 81, 32 # 125, 64 # 125)].
Proof. vm_compute. reflexivity. Qed.

(** The same samples as a recording: five frames with a hop of 512, four at
    440 Hz that make one event, and one at 880 Hz that is too short. *)
Example two_tone_recording_events :
  map (fun e => (Event.label e, Event.fullNote e,
                 Qred (Event.startTime e), Qred (Event.endTime e)))
      (stableNotes (mkLabelConfig true "D")
         (analyzeUserAudio toneDetector twoToneBuffer))
  = [("Pa"%string, "A4"%string, 0, 32 # 125)].
Proof. vm_compute. reflexivity. Qed.

(** A gap of two hops between 200 Hz and 230 Hz is filled by 210 and 220. *)
Example fill_two_hops :
  map (fun s => (Qred (Segment.startTime s), Qred (Segment.endTime s),
                 Qred (Segment.freq s)))
      (fillGaps (1 # 10)
         [Segment.mk 0 (1 # 10) 200; Segment.mk (3 # 10) (4 # 10) 230])
  = [(0, 1 # 10, 200); (1 # 10, 1 # 5, 210); (1 # 5, 3 # 10, 220);
     (3 # 10, 2 # 5, 230)].
Proof. vm_compute. reflexivity. Qed.

(** ** Arithmetic of the rational model *)

Lemma Qltb_lt (a b : Q) : Qltb a b = true <-> a < b.
Proof.
  unfold Qltb. rewrite Qlt_alt. destruct (a ?= b); split; congruence.
Qed.

Lemma Qltb_ge (a b : Q) : Qltb a b = false <-> b <= a.
Proof.
  rewrite <- not_true_iff_false, Qltb_lt. split.
  - apply Qnot_lt_le.
  - apply Qle_not_lt.
Qed.

Lemma two_pow_pos (k : Z) : 0 < 2 ^ k.
Proof. apply Qpower_0_lt. reflexivity. Qed.

Lemma two_pow_succ (k : Z) : 2 ^ (k + 1) == 2 * 2 ^ k.
Proof. rewrite Qpower_plus by discriminate. simpl (2 ^ 1). ring. Qed.

(** The integer logarithm brackets a positive integer, in [Q]. *)
Lemma Zlog2_bracket (n : Z) :
  (0 < n)%Z ->
  2 ^ Z.log2 n <= inject_Z n /\ inject_Z n < 2 * 2 ^ Z.log2 n.
Proof.
  intros Hn.
  destruct (Z.log2_spec n Hn) as [Hlo Hhi].
  pose proof (Z.log2_nonneg n) as Hnn.
  rewrite <- two_pow_succ.
  change 2 with (inject_Z 2).
  rewrite <- !Zpower_Qpower by lia.
  rewrite <- Zle_Qle, <- Zlt_Qlt.
  replace (Z.log2 n + 1)%Z with (Z.succ (Z.log2 n)) by lia.
  split; assumption.
Qed.

(** [floorLog2 q] is the exponent of the power of two just below [q]. *)
Lemma floorLog2_spec (q : Q) :
  0 < q -> 2 ^ floorLog2 q <= q /\ q < 2 ^ (floorLog2 q + 1).
Proof.
  intros Hq. unfold floorLog2.
  destruct q as [n d]. cbn [Qnum Qden].
  assert (Hn : (0 < n)%Z).
  { unfold Qlt in Hq. cbn in Hq. lia. }
  destruct (Zlog2_bracket n Hn) as [Hn1 Hn2].
  destruct (Zlog2_bracket (Zpos d) eq_refl) as [Hd1 Hd2].
  set (a := Z.log2 n) in *. set (b := Z.log2 (Zpos d)) in *.
  pose proof (two_pow_pos a) as Ha. pose proof (two_pow_pos b) as Hb.
  assert (HD : 0 < inject_Z (Zpos d)) by reflexivity.
  assert (Hk : 2 ^ (a - b) == 2 ^ a / 2 ^ b).
  { apply Qpower_minus. discriminate. }
  assert (Hqq : n # d == inject_Z n / inject_Z (Zpos d)) by apply Qmake_Qdiv.
  destruct (Qle_bool (2 ^ (a - b)) (n # d)) eqn:Ht.
  - apply Qle_bool_iff in Ht. split; [exact Ht|].
    rewrite two_pow_succ, Hk, Hqq.
    apply Qlt_shift_div_r; [exact HD|].
    setoid_replace (2 * (2 ^ a / 2 ^ b) * inject_Z (Z.pos d))
      with ((2 * 2 ^ a) * (inject_Z (Z.pos d) / 2 ^ b)) by (field; lra).
    apply Qlt_le_trans with (2 * 2 ^ a * 1); [lra|].
    apply Qmult_le_l; [lra|].
    apply Qle_shift_div_l; lra.
  - assert (Hlt : n # d < 2 ^ (a - b)).
    { apply Qnot_le_lt. intros H. apply Qle_bool_iff in H. congruence. }
    replace (a - b - 1 + 1)%Z with (a - b)%Z by lia.
    split; [|exact Hlt].
    assert (Hk1 : 2 ^ (a - b) == 2 * 2 ^ (a - b - 1)).
    { rewrite <- two_pow_succ. replace (a - b - 1 + 1)%Z with (a - b)%Z by lia.
      reflexivity. }
    assert (H2 : 2 * 2 ^ (a - b - 1) <= 2 * (n # d)); [|lra].
    rewrite <- Hk1, Hk, Hqq.
    apply Qle_shift_div_r; [exact Hb|].
    setoid_replace (2 * (inject_Z n / inject_Z (Z.pos d)) * 2 ^ b)
      with (inject_Z n * ((2 * 2 ^ b) / inject_Z (Z.pos d))) by (field; lra).
    apply Qle_trans with (inject_Z n * 1); [lra|].
    apply Qmult_le_l; [lra|].
    apply Qle_shift_div_l; lra.
Qed.

Lemma two_pow_lt_inv (j k : Z) : 2 ^ j < 2 ^ k -> (j < k)%Z.
Proof. intros H. apply (Qpower_lt_compat_l_inv 2); [exact H | reflexivity]. Qed.


Lemma floorLog2_mono (p q : Q) :
  0 < p -> p <= q -> (floorLog2 p <= floorLog2 q)%Z.
Proof.
  intros Hp Hpq.
  assert (Hq : 0 < q) by (apply Qlt_le_trans with p; assumption).
  destruct (floorLog2_spec p Hp) as [Plo _].
  destruct (floorLog2_spec q Hq) as [_ Qhi].
  assert (floorLog2 p < floorLog2 q + 1)%Z; [|lia].
  apply two_pow_lt_inv.
  apply Qle_lt_trans with p; [exact Plo|].
  apply Qle_lt_trans with q; assumption.
Qed.


Lemma Qpower_positive_pos (x : Q) (p : positive) :
  0 < x -> 0 < Qpower_positive x p.
Proof. intros Hx. apply (Qpower_0_lt x (Zpos p) Hx). Qed.

Lemma Qpower_positive_le (x y : Q) (p : positive) :
  0 < x -> x <= y -> Qpower_positive x p <= Qpower_positive y p.
Proof.
  intros Hx Hxy.
  assert (Hy : 0 < y) by (apply Qlt_le_trans with x; assumption).
  induction p using Pos.peano_ind.
  - exact Hxy.
  - rewrite <- Pos.add_1_r, !Qpower_plus_positive.
    pose proof (Qpower_positive_pos x p Hx).
    pose proof (Qpower_positive_pos y p Hy).
    apply Qle_trans with (Qpower_positive x p * Qpower_positive y 1).
    + apply Qmult_le_l; assumption.
    + apply Qmult_le_r; [exact Hy | exact IHp].
Qed.

Lemma pow24_pos (x : Q) : 0 < x -> 0 < x ^ 24.
Proof. apply Qpower_0_lt. Qed.

Lemma pow24_le (x y : Q) : 0 < x -> x <= y -> x ^ 24 <= y ^ 24.
Proof. apply Qpower_positive_le. Qed.

(** [roundMidi x] is the integer [M] with [2^(2M-139) <= x^24 < 2^(2M-137)],
    that is [M - 1/2 <= 69 + 12 log2 x < M + 1/2]. *)
Lemma roundMidi_spec (x : Q) :
  0 < x ->
  2 ^ (2 * roundMidi x - 139) <= x ^ 24 /\ x ^ 24 < 2 ^ (2 * roundMidi x - 137).
Proof.
  intros Hx. unfold roundMidi.
  destruct (floorLog2_spec (x ^ 24) (pow24_pos x Hx)) as [Hlo Hhi].
  set (k := floorLog2 (x ^ 24)) in *.
  pose proof (Z.div_mod (139 + k) 2 ltac:(lia)) as Hdm.
  pose proof (Z.mod_pos_bound (139 + k) 2 ltac:(lia)) as Hm.
  split.
  - apply Qle_trans with (2 ^ k); [|exact Hlo].
    apply Qpower_le_compat_l; [lia | discriminate].
  - apply Qlt_le_trans with (2 ^ (k + 1)); [exact Hhi|].
    apply Qpower_le_compat_l; [lia | discriminate].
Qed.

Lemma roundMidi_unique (x : Q) (m : Z) :
  0 < x -> 2 ^ (2 * m - 139) <= x ^ 24 -> x ^ 24 < 2 ^ (2 * m - 137) ->
  roundMidi x = m.
Proof.
  intros Hx Hlo Hhi.
  destruct (roundMidi_spec x Hx) as [Glo Ghi].
  assert (2 * roundMidi x - 139 < 2 * m - 137)%Z.
  { apply two_pow_lt_inv. apply Qle_lt_trans with (x ^ 24); assumption. }
  assert (2 * m - 139 < 2 * roundMidi x - 137)%Z.
  { apply two_pow_lt_inv. apply Qle_lt_trans with (x ^ 24); assumption. }
  lia.
Qed.

Lemma roundMidi_mono (x y : Q) :
  0 < x -> x <= y -> (roundMidi x <= roundMidi y)%Z.
Proof.
  intros Hx Hxy. unfold roundMidi.
  apply Z.div_le_mono; [lia|].
  apply Z.add_le_mono_l.
  apply floorLog2_mono; [apply pow24_pos, Hx | apply pow24_le; assumption].
Qed.


(** ** The integer computation agrees with the real formula *)










(** ** The walk of the aggregator *)

Lemma continues_linked (prev s : Segment.t) :
  continues prev s = true <-> linked prev s.
Proof.
  unfold continues, linked. rewrite andb_true_iff, Qltb_lt. reflexivity.
Qed.

Lemma last_default {A : Type} (l : list A) (d d' : A) :
  l <> [] -> last l d = last l d'.
Proof.
  induction l as [|a [|b l] IH]; intros H; [congruence | reflexivity |].
  change (last (b :: l) d = last (b :: l) d'). apply IH. discriminate.
Qed.

Lemma chain_snoc {A : Type} (R : A -> A -> Prop) (l : list A) (d x : A) :
  chain R (l ++ [x]) <-> chain R l /\ (l <> [] -> R (last l d) x).
Proof.
  induction l as [|a [|b l] IH].
  - simpl. intuition congruence.
  - simpl. intuition congruence.
  - change (R a b /\ chain R ((b :: l) ++ [x])
            <-> (R a b /\ chain R (b :: l))
                /\ (a :: b :: l <> [] -> R (last (b :: l) d) x)).
    rewrite IH. intuition (try discriminate).
Qed.

Lemma separated_grow (runs : list (list Segment.t)) (cur : list Segment.t)
    (s : Segment.t) :
  cur <> [] -> chain separated (runs ++ [cur]) ->
  chain separated (runs ++ [cur ++ [s]]).
Proof.
  intros Hne. induction runs as [|r runs IH]; [intros _; exact I|].
  destruct runs as [|r' runs].
  - intros [H _]. split; [|exact I]. unfold separated in *.
    destruct cur as [|c cur]; [congruence | exact H].
  - intros [H1 H2]. split; [exact H1 | apply IH, H2].
Qed.

Section Walk.
Variable cfg : LabelConfig.

Lemma walk_invariant (segs : list Segment.t) :
  exists events runs cur,
    fold_left (aggStep cfg) segs ([], []) = (events, cur)
    /\ fold_left runStep segs ([], []) = (runs, cur)
    /\ walkInv cfg segs events runs cur.
Proof.
  induction segs as [|s segs IH] using rev_ind.
  - exists [], [], []. repeat split; simpl; auto.
  - destruct IH as (events & runs & cur & Ha & Hr & Hinv).
    rewrite !fold_left_app, Ha, Hr. cbn [fold_left aggStep runStep].
    destruct Hinv as [Hc Hruns Hcur Hsep Hst Hev].
    destruct cur as [|first rest].
    + destruct (Hst eq_refl) as [-> ->].
      exists events, [], [s]. repeat split; simpl; auto; discriminate.
    + set (cur := first :: rest) in *.
      assert (Hne : cur <> []) by discriminate.
      destruct (continues (last cur first) s) eqn:Hk.
      * exists events, runs, (cur ++ [s]). split; [reflexivity|].
        split; [reflexivity|]. split.
        -- rewrite app_assoc, Hc. reflexivity.
        -- exact Hruns.
        -- apply (chain_snoc linked cur first s). split; [exact Hcur|].
           intros _. apply continues_linked, Hk.
        -- apply separated_grow; assumption.
        -- intros H. apply app_eq_nil in H. destruct H; discriminate.
        -- exact Hev.
      * exists (processRun cfg events cur), (runs ++ [cur]), [s].
        split; [reflexivity|]. split; [reflexivity|]. split.
        -- rewrite concat_app. simpl. rewrite app_nil_r, <- app_assoc.
           rewrite <- Hc. rewrite <- app_assoc. reflexivity.
        -- apply Forall_app. split; [exact Hruns|].
           constructor; [|constructor]. split; assumption.
        -- exact I.
        -- apply (chain_snoc separated (runs ++ [cur]) [] [s]).
           split; [exact Hsep|]. intros _.
           rewrite last_last. unfold separated. cbn [hd].
           rewrite (last_default cur noSegment first Hne).
           rewrite <- continues_linked, Hk. discriminate.
        -- discriminate.
        -- rewrite fold_left_app. simpl. rewrite Hev. reflexivity.
Qed.

Lemma stableNotes_runs (segs : list Segment.t) :
  stableNotes cfg segs = fold_left (processRun cfg) (runsOf segs) [].
Proof.
  destruct (walk_invariant segs) as (events & runs & cur & Ha & Hr & Hinv).
  unfold stableNotes, runsOf. rewrite Ha, Hr.
  destruct Hinv as [_ _ _ _ Hst Hev].
  destruct segs as [|s0 segs'].
  - simpl in Ha. inversion Ha. subst cur.
    destruct (Hst eq_refl) as [-> _]. reflexivity.
  - destruct cur as [|c cur'].
    + destruct (Hst eq_refl) as [_ H]. discriminate.
    + rewrite fold_left_app. simpl fold_left at 1. rewrite Hev. reflexivity.
Qed.
End Walk.

Lemma runsOf_concat (segs : list Segment.t) : concat (runsOf segs) = segs.
Proof.
  destruct (walk_invariant (mkLabelConfig false "") segs)
    as (events & runs & cur & _ & Hr & Hinv).
  unfold runsOf. rewrite Hr. destruct Hinv as [Hc _ _ _ Hst _].
  destruct cur as [|c cur'].
  - destruct (Hst eq_refl) as [-> ->]. reflexivity.
  - rewrite concat_app. simpl. rewrite app_nil_r. exact Hc.
Qed.

Lemma runsOf_runs (segs : list Segment.t) : Forall isRun (runsOf segs).
Proof.
  destruct (walk_invariant (mkLabelConfig false "") segs)
    as (events & runs & cur & _ & Hr & Hinv).
  unfold runsOf. rewrite Hr. destruct Hinv as [_ Hruns Hcur _ _ _].
  destruct cur as [|c cur']; [exact Hruns|].
  apply Forall_app. split; [exact Hruns|].
  constructor; [|constructor]. split; [discriminate | exact Hcur].
Qed.


(** ** Closing a run *)

Lemma processRun_app (cfg : LabelConfig) (events : list Event.t)
    (run : list Segment.t) :
  processRun cfg events run = events ++ processRun cfg [] run.
Proof.
  unfold processRun. destruct run as [|first rest]; [now rewrite app_nil_r|].
  destruct (Qltb _ _); [reflexivity | now rewrite app_nil_r].
Qed.

Lemma fold_processRun (cfg : LabelConfig) (runs : list (list Segment.t))
    (events : list Event.t) :
  fold_left (processRun cfg) runs events
  = events ++ flat_map (processRun cfg []) runs.
Proof.
  revert events. induction runs as [|r runs IH]; intros events.
  - simpl. now rewrite app_nil_r.
  - simpl. rewrite IH, (processRun_app cfg events r), <- app_assoc. reflexivity.
Qed.

Lemma stableNotes_flat_map (cfg : LabelConfig) (segs : list Segment.t) :
  stableNotes cfg segs = flat_map (processRun cfg []) (runsOf segs).
Proof. rewrite stableNotes_runs, fold_processRun. reflexivity. Qed.

Lemma runSpan_cons (first : Segment.t) (rest : list Segment.t) :
  runSpan (first :: rest)
  = Segment.endTime (last (first :: rest) first) - Segment.startTime first.
Proof.
  unfold runSpan. cbn [hd].
  rewrite (last_default (first :: rest) noSegment first) by discriminate.
  reflexivity.
Qed.

Lemma processRun_drop (cfg : LabelConfig) (events : list Event.t)
    (run : list Segment.t) :
  run = [] \/ runSpan run <= 15 # 100 -> processRun cfg events run = events.
Proof.
  intros [-> | Hspan]; [reflexivity|].
  destruct run as [|first rest]; [reflexivity|].
  rewrite runSpan_cons in Hspan. apply Qltb_ge in Hspan.
  unfold processRun. rewrite Hspan. reflexivity.
Qed.

Lemma processRun_emit (cfg : LabelConfig) (events : list Event.t)
    (run : list Segment.t) :
  run <> [] -> 15 # 100 < runSpan run ->
  exists e,
    processRun cfg events run = events ++ [e]
    /\ Event.startTime e = Segment.startTime (hd noSegment run)
    /\ Event.endTime e = Segment.endTime (last run noSegment)
    /\ Event.avgFreq e = sumFreq run / natQ (List.length run)
    /\ Event.midi e = getMidi (Event.avgFreq e)
    /\ Event.fullNote e
       = (showEntry (jsIndex NOTES (midiRem12 (Event.midi e)))
          ++ showOctave (Event.midi e))%string
    /\ Event.label e = sargamLabel cfg (Event.midi e) (Event.fullNote e)
    /\ Event.displayLabel e = Event.label e.
Proof.
  intros Hne Hspan. destruct run as [|first rest]; [congruence|].
  pose proof (runSpan_cons first rest) as Hs.
  rewrite Hs in Hspan. apply Qltb_lt in Hspan.
  unfold processRun. rewrite Hspan.
  eexists. split; [reflexivity|]. cbn [Event.startTime Event.endTime
    Event.avgFreq Event.midi Event.fullNote Event.label Event.displayLabel hd].
  rewrite (last_default (first :: rest) noSegment first) by discriminate.
  repeat split; reflexivity.
Qed.

(** Every event comes from closing one qualifying run. *)
Lemma stableNotes_In (cfg : LabelConfig) (segs : list Segment.t) (e : Event.t) :
  In e (stableNotes cfg segs) ->
  exists run, In run (runsOf segs) /\ isRun run /\ 15 # 100 < runSpan run
              /\ processRun cfg [] run = [e].
Proof.
  rewrite stableNotes_flat_map, in_flat_map. intros (run & Hin & He).
  exists run. split; [exact Hin|].
  pose proof (runsOf_runs segs) as Hruns. rewrite Forall_forall in Hruns.
  specialize (Hruns run Hin). split; [exact Hruns|].
  destruct (Qlt_le_dec (15 # 100) (runSpan run)) as [Hlt | Hle].
  - split; [exact Hlt|].
    destruct (processRun_emit cfg [] run (proj1 Hruns) Hlt) as (e' & Hp & _).
    rewrite Hp in He |- *. simpl in He. destruct He as [-> | []]. reflexivity.
  - rewrite (processRun_drop cfg [] run (or_intror Hle)) in He. destruct He.
Qed.

(** C2. Minimum duration: every event of [stableNotes] spans strictly more
    than 0.15 s, from the start of the first segment of its run to the end
    of the last one; closing a run whose span is at most 0.15 s adds no
    event. *)
Theorem minimum_duration (cfg : LabelConfig) (segs : list Segment.t) :
  Forall (fun e =>
            15 # 100 < Event.endTime e - Event.startTime e
            /\ exists run,
                 In run (runsOf segs)
                 /\ Event.startTime e = Segment.startTime (hd noSegment run)
                 /\ Event.endTime e = Segment.endTime (last run noSegment))
         (stableNotes cfg segs)
  /\ forall events run,
       15 # 100 < runSpan run \/ processRun cfg events run = events.
Proof.
  split.
  - apply Forall_forall. intros e He.
    destruct (stableNotes_In cfg segs e He) as (run & Hin & [Hne _] & Hspan & Hp).
    destruct (processRun_emit cfg [] run Hne Hspan) as (e' & Hp' & Hs & He' & _).
    rewrite Hp in Hp'. simpl in Hp'. injection Hp' as <-.
    split.
    + rewrite Hs, He'. exact Hspan.
    + exists run. auto.
  - intros events run.
    destruct (Qlt_le_dec (15 # 100) (runSpan run)) as [Hlt | Hle]; [left; exact Hlt|].
    right. apply processRun_drop. right. exact Hle.
Qed.

(** ** [getMidi] on positive frequencies *)

Lemma getMidi_pos (f : Q) : 0 < f -> getMidi f = MInt (roundMidi (f / 440)).
Proof.
  intros Hf. unfold getMidi.
  destruct (Qeq_bool f 0) eqn:E0.
  - apply Qeq_bool_iff in E0. rewrite E0 in Hf. discriminate.
  - destruct (Qltb f 0) eqn:E1; [|reflexivity].
    apply Qltb_lt in E1. exfalso. apply (Qlt_irrefl 0).
    apply Qlt_trans with f; assumption.
Qed.

Lemma div440_pos (f : Q) : 0 < f -> 0 < f / 440.
Proof. intros Hf. apply Qlt_shift_div_l; [reflexivity | lra]. Qed.


Lemma strictEq_MInt (a b : Z) : strictEq (MInt a) (MInt b) = true <-> a = b.
Proof. simpl. apply Z.eqb_eq. Qed.


(** ** The mean of a run and its MIDI number *)


Lemma getMidi_zero (f : Q) : f == 0 -> getMidi f = MNull.
Proof.
  intros H. unfold getMidi. apply Qeq_bool_iff in H. rewrite H. reflexivity.
Qed.

Lemma getMidi_neg (f : Q) : f < 0 -> getMidi f = MNaN.
Proof.
  intros H. unfold getMidi.
  destruct (Qeq_bool f 0) eqn:E0.
  - apply Qeq_bool_iff in E0. rewrite E0 in H. discriminate.
  - apply Qltb_lt in H. rewrite H. reflexivity.
Qed.

Lemma getMidi_cases (f : Q) :
  (f == 0 /\ getMidi f = MNull)
  \/ (f < 0 /\ getMidi f = MNaN)
  \/ (0 < f /\ getMidi f = MInt (roundMidi (f / 440))).
Proof.
  destruct (Q_dec f 0) as [[H | H] | H].
  - right. left. split; [exact H | apply getMidi_neg, H].
  - right. right. split; [exact H | apply getMidi_pos, H].
  - left. split; [exact H | apply getMidi_zero, H].
Qed.


Lemma natQ_S (n : nat) : natQ (S n) == natQ n + 1.
Proof. unfold natQ. rewrite Nat2Z.inj_succ, <- Z.add_1_r, inject_Z_plus. reflexivity. Qed.

Lemma natQ_pos (n : nat) : (0 < n)%nat -> 0 < natQ n.
Proof.
  intros H. unfold natQ. change 0 with (inject_Z 0). rewrite <- Zlt_Qlt. lia.
Qed.


Lemma sumFreq_from (run : list Segment.t) (a : Q) :
  fold_left (fun sum s => sum + Segment.freq s) run a == a + sumSpec run.
Proof.
  revert a. induction run as [|s run IH]; intros a; simpl.
  - ring.
  - rewrite IH. ring.
Qed.

Lemma sumFreq_spec (run : list Segment.t) : sumFreq run == sumSpec run.
Proof. unfold sumFreq. rewrite sumFreq_from. ring. Qed.

Lemma sumSpec_lower (run : list Segment.t) (lo : Q) :
  Forall (fun s => lo <= Segment.freq s) run ->
  lo * natQ (List.length run) <= sumSpec run.
Proof.
  induction 1 as [|s run Hs Hrun IH]; cbn [sumSpec fold_right List.length].
  - change (natQ 0) with 0. lra.
  - fold (sumSpec run). rewrite natQ_S. lra.
Qed.

Lemma sumSpec_upper (run : list Segment.t) (hi : Q) :
  Forall (fun s => Segment.freq s <= hi) run ->
  sumSpec run <= hi * natQ (List.length run).
Proof.
  induction 1 as [|s run Hs Hrun IH]; cbn [sumSpec fold_right List.length].
  - change (natQ 0) with 0. lra.
  - fold (sumSpec run). rewrite natQ_S. lra.
Qed.

Lemma meanFreq_bounds (run : list Segment.t) (lo hi : Q) :
  run <> [] ->
  Forall (fun s => lo <= Segment.freq s) run ->
  Forall (fun s => Segment.freq s <= hi) run ->
  lo <= meanFreq run /\ meanFreq run <= hi.
Proof.
  intros Hne Hlo Hhi.
  assert (Hn : 0 < natQ (List.length run)).
  { apply natQ_pos. destruct run; [congruence | simpl; lia]. }
  unfold meanFreq. split.
  - apply Qle_shift_div_l; [exact Hn | apply sumSpec_lower, Hlo].
  - apply Qle_shift_div_r; [exact Hn | apply sumSpec_upper, Hhi].
Qed.

Lemma avgFreq_mean (run : list Segment.t) :
  sumFreq run / natQ (List.length run) == meanFreq run.
Proof. unfold meanFreq. rewrite sumFreq_spec. reflexivity. Qed.


Lemma highest_freq (run : list Segment.t) :
  run <> [] ->
  exists b, In b run /\ Forall (fun s => Segment.freq s <= Segment.freq b) run.
Proof.
  induction run as [|s [|s' run] IH]; intros Hne; [congruence | |].
  - exists s. split; [now left|]. constructor; [apply Qle_refl | constructor].
  - destruct (IH ltac:(discriminate)) as (b & Hb & Hall).
    destruct (Qlt_le_dec (Segment.freq b) (Segment.freq s)) as [Hlt | Hle].
    + exists s. split; [now left|]. constructor; [apply Qle_refl|].
      eapply Forall_impl; [|exact Hall]. intros x Hx. cbn beta in Hx. lra.
    + exists b. split; [now right|]. constructor; assumption.
Qed.



Lemma getMidi_MInt_inv (f : Q) (m : Z) :
  getMidi f = MInt m -> 0 < f /\ roundMidi (f / 440) = m.
Proof.
  destruct (getMidi_cases f) as [[_ ->] | [[_ ->] | [H ->]]];
    [discriminate | discriminate |].
  intros E. injection E as E. split; assumption.
Qed.





(** ** Note names *)

Lemma gated_mean (run : list Segment.t) :
  run <> [] -> Forall (fun s => 50 <= Segment.freq s) run ->
  50 <= sumFreq run / natQ (List.length run).
Proof.
  intros Hne Hlo. rewrite avgFreq_mean.
  destruct (highest_freq run Hne) as (b & _ & Hhi).
  apply (meanFreq_bounds run _ _ Hne Hlo Hhi).
Qed.

Lemma getMidi_gated (f : Q) :
  50 <= f -> exists m, getMidi f = MInt m /\ (31 <= m)%Z.
Proof.
  intros Hf. assert (H0 : 0 < f) by lra.
  exists (roundMidi (f / 440)). split; [apply getMidi_pos, H0|].
  change 31%Z with (roundMidi (50 / 440)).
  apply roundMidi_mono; [reflexivity|].
  apply Qmult_le_compat_r; [exact Hf | discriminate].
Qed.

Lemma NOTES_entry (c : Z) :
  (0 <= c < 12)%Z -> exists name, nth_error NOTES (Z.to_nat c) = Some name.
Proof.
  intros Hc. destruct (nth_error NOTES (Z.to_nat c)) as [name|] eqn:E.
  - exists name. reflexivity.
  - apply nth_error_None in E. simpl in E. lia.
Qed.

Lemma jsIndex_nonneg (table : list string) (c : Z) :
  (0 <= c)%Z -> jsIndex table (MInt c) = nth_error table (Z.to_nat c).
Proof.
  intros Hc. unfold jsIndex. destruct (Z.ltb_spec c 0); [lia | reflexivity].
Qed.



(** ** Scale-degree labels *)

Lemma indexFrom_absent (table : list string) (x : string) (i : Z) :
  ~ In x table -> indexFrom table x i = (-1)%Z.
Proof.
  revert i. induction table as [|y rest IH]; intros i Hx; [reflexivity|].
  simpl. destruct (String.eqb_spec y x) as [E | _].
  - exfalso. apply Hx. left. exact E.
  - apply IH. intros H. apply Hx. right. exact H.
Qed.

Lemma sargamLabel_fallback (show_ : bool) (root : string) (midi : MidiVal)
    (full : string) :
  ~ In root NOTES -> sargamLabel (mkLabelConfig show_ root) midi full = full.
Proof.
  intros Hr. unfold sargamLabel. cbn [showSargam rootKey].
  destruct (show_ && truthy root); [|reflexivity].
  unfold indexOf. rewrite (indexFrom_absent NOTES root 0 Hr). reflexivity.
Qed.

Lemma pitch_class_cases (c : Z) :
  (0 <= c < 12)%Z ->
  In c [0; 1; 2; 3; 4; 5; 6; 7; 8; 9; 10; 11]%Z.
Proof. intros H. simpl. lia. Qed.

Lemma sargamLabel_table (r : nat) (root : string) (m : Z) (full : string) :
  nth_error NOTES r = Some root -> (0 <= m)%Z ->
  nth_error SARGAM_MAPPING (Z.to_nat ((m mod 12 - Z.of_nat r + 12) mod 12))
  = Some (sargamLabel (mkLabelConfig true root) (MInt m) full).
Proof.
  intros Hr Hm. unfold sargamLabel. cbn [showSargam rootKey midiRem12].
  rewrite (Z.rem_mod_nonneg m 12) by lia.
  assert (Hc : (0 <= m mod 12 < 12)%Z) by (apply Z.mod_pos_bound; lia).
  apply pitch_class_cases in Hc. revert Hc. generalize (m mod 12)%Z. intros c Hc.
  do 12 (destruct r as [|r]; [injection Hr as <-;
    simpl in Hc; repeat (destruct Hc as [<- | Hc]; [vm_compute; reflexivity|]);
    destruct Hc|]).
  destruct r; discriminate.
Qed.

(** C7. Scale-degree labelling.  With sargam labels on and a root key at
    index [r] of the chromatic table, the label of the event closed from a
    run of gate-passed segments is the entry
    [(midi mod 12 - r + 12) mod 12] of the sargam table; the label function
    gives that entry for every non-negative MIDI number, so it depends on
    the pitch class and the root only; for root C the classes C, D, G give
    Sa, Re, Pa and for root D the class D gives Sa; a root key outside the
    table leaves the absolute note name. *)
Theorem scale_degree_label :
  (forall cfg events run r,
     run <> [] -> 15 # 100 < runSpan run ->
     Forall (fun s => 50 <= Segment.freq s) run ->
     showSargam cfg = true -> nth_error NOTES r = Some (rootKey cfg) ->
     exists e m,
       processRun cfg events run = events ++ [e]
       /\ Event.midi e = MInt m
       /\ nth_error SARGAM_MAPPING
            (Z.to_nat ((m mod 12 - Z.of_nat r + 12) mod 12))
          = Some (Event.label e))
  /\ (forall r root m full,
        nth_error NOTES r = Some root -> (0 <= m)%Z ->
        nth_error SARGAM_MAPPING
          (Z.to_nat ((m mod 12 - Z.of_nat r + 12) mod 12))
        = Some (sargamLabel (mkLabelConfig true root) (MInt m) full))
  /\ (forall octave full,
        (0 <= octave)%Z ->
        sargamLabel (mkLabelConfig true "C") (MInt (12 * octave + 0)) full = "Sa"%string
        /\ sargamLabel (mkLabelConfig true "C") (MInt (12 * octave + 2)) full = "Re"%string
        /\ sargamLabel (mkLabelConfig true "C") (MInt (12 * octave + 7)) full = "Pa"%string
        /\ sargamLabel (mkLabelConfig true "D") (MInt (12 * octave + 2)) full = "Sa"%string)
  /\ (forall show_ root midi full,
        ~ In root NOTES ->
        sargamLabel (mkLabelConfig show_ root) midi full = full)
  /\ (forall cfg events run e,
        processRun cfg events run = events ++ [e] ->
        Event.label e = sargamLabel cfg (Event.midi e) (Event.fullNote e)).
Proof.
  split; [|split; [|split; [|split]]].
  - intros cfg events run r Hne Hspan Hgate Hshow Hroot.
    destruct (processRun_emit cfg events run Hne Hspan)
      as (e & Hp & _ & _ & Havg & Hmidi & _ & Hlabel & _).
    pose proof (gated_mean run Hne Hgate) as H50. rewrite <- Havg in H50.
    destruct (getMidi_gated _ H50) as (m & Hm & H31).
    exists e, m. split; [exact Hp|]. rewrite Hmidi, Hm. split; [reflexivity|].
    rewrite Hlabel, Hmidi, Hm. destruct cfg as [sh root]. cbn in Hshow, Hroot.
    subst sh. apply sargamLabel_table; [exact Hroot | lia].
  - apply sargamLabel_table.
  - intros octave full Hoct.
    pose proof (sargamLabel_table 0 "C" (12 * octave + 0) full eq_refl ltac:(lia)) as H1.
    pose proof (sargamLabel_table 0 "C" (12 * octave + 2) full eq_refl ltac:(lia)) as H2.
    pose proof (sargamLabel_table 0 "C" (12 * octave + 7) full eq_refl ltac:(lia)) as H3.
    pose proof (sargamLabel_table 2 "D" (12 * octave + 2) full eq_refl ltac:(lia)) as H4.
    replace ((12 * octave + 0) mod 12)%Z with 0%Z in H1
      by (rewrite Z.add_comm, Z.mul_comm, Z.mod_add; [reflexivity | lia]).
    replace ((12 * octave + 2) mod 12)%Z with 2%Z in H2, H4
      by (rewrite Z.add_comm, Z.mul_comm, Z.mod_add; [reflexivity | lia]).
    replace ((12 * octave + 7) mod 12)%Z with 7%Z in H3
      by (rewrite Z.add_comm, Z.mul_comm, Z.mod_add; [reflexivity | lia]).
    remember (sargamLabel (mkLabelConfig true "C") (MInt (12 * octave + 0)) full) as l1.
    remember (sargamLabel (mkLabelConfig true "C") (MInt (12 * octave + 2)) full) as l2.
    remember (sargamLabel (mkLabelConfig true "C") (MInt (12 * octave + 7)) full) as l3.
    remember (sargamLabel (mkLabelConfig true "D") (MInt (12 * octave + 2)) full) as l4.
    cbn in H1, H2, H3, H4.
    injection H1 as <-. injection H2 as <-. injection H3 as <-. injection H4 as <-.
    repeat split; reflexivity.
  - apply sargamLabel_fallback.
  - intros cfg events run e Hp.
    destruct run as [|first rest].
    + simpl in Hp. exfalso. apply (f_equal (@List.length _)) in Hp.
      rewrite length_app in Hp. simpl in Hp. lia.
    + unfold processRun in Hp. destruct (Qltb _ _).
      * apply app_inv_head in Hp. injection Hp as <-. reflexivity.
      * exfalso. apply (f_equal (@List.length _)) in Hp.
        rewrite length_app in Hp. simpl in Hp. lia.
Qed.

(** ** Frame loops *)

Lemma frameLoop_map {A : Type} (fuel : nat) (cond : nat -> bool) (stepSize : nat)
    (body : nat -> A) (i : nat) :
  frameLoop fuel cond stepSize body i
  = map body (frameLoop fuel cond stepSize (fun j => j) i).
Proof.
  revert i. induction fuel as [|fuel IH]; intros i; [reflexivity|].
  simpl. destruct (cond i); [|reflexivity]. simpl. now rewrite IH.
Qed.

(** The offsets visited are [i, i + step, i + 2 step, ...]. *)
Lemma frameLoop_offsets (fuel : nat) (cond : nat -> bool) (stepSize i : nat) :
  let offsets := frameLoop fuel cond stepSize (fun j => j) i in
  offsets = map (fun k => (i + k * stepSize)%nat) (seq 0 (List.length offsets)).
Proof.
  revert i. induction fuel as [|fuel IH]; intros i; [reflexivity|].
  cbn zeta in *. simpl. destruct (cond i); [|reflexivity].
  cbn [List.length seq map]. f_equal; [lia|].
  rewrite (IH (i + stepSize)%nat) at 1. rewrite <- seq_shift, map_map.
  apply map_ext. intros k. lia.
Qed.

(** The loop stops on its condition, not for lack of fuel: more fuel gives
    the same frames. *)
Lemma frameLoop_enough {A : Type} (len : nat) (cond : nat -> bool)
    (stepSize : nat) (body : nat -> A) :
  (0 < stepSize)%nat ->
  (forall i, (len <= i)%nat -> cond i = false) ->
  forall fuel extra i,
    (len <= i + fuel)%nat ->
    frameLoop (fuel + extra) cond stepSize body i
    = frameLoop fuel cond stepSize body i.
Proof.
  intros Hstep Hcond. induction fuel as [|fuel IH]; intros extra i Hi.
  - simpl. destruct extra; [reflexivity|]. simpl.
    rewrite Hcond by lia. reflexivity.
  - simpl. destruct (cond i); [|reflexivity]. f_equal. apply IH. lia.
Qed.

Lemma fileChunks_enough (buffer : AudioBuffer.t) (extra : nat) :
  let channelData := AudioBuffer.channelData buffer in
  frameLoop (List.length channelData + extra)
    (fun i => (i <? List.length channelData)%nat) bufferSize
    (fun i => slice channelData i (i + bufferSize)) 0
  = fileChunks buffer.
Proof.
  cbn zeta. unfold fileChunks.
  apply (frameLoop_enough (List.length (AudioBuffer.channelData buffer))).
  - unfold bufferSize. lia.
  - intros i Hi. apply Nat.ltb_ge. exact Hi.
  - lia.
Qed.

Lemma userOffsets_enough (rawData : list Q) (extra : nat) :
  frameLoop (List.length rawData + extra)
    (fun i => (i + windowSize <=? List.length rawData)%nat) hopSize
    (fun i => i) 0
  = userOffsets rawData.
Proof.
  unfold userOffsets. apply (frameLoop_enough (List.length rawData)).
  - unfold hopSize. lia.
  - intros i Hi. apply Nat.leb_gt. unfold windowSize. lia.
  - lia.
Qed.

Lemma userOffsets_spec (rawData : list Q) :
  userOffsets rawData
  = map (fun k => (k * hopSize)%nat) (seq 0 (List.length (userOffsets rawData))).
Proof.
  unfold userOffsets at 1.
  rewrite (frameLoop_offsets (List.length rawData) _ hopSize 0) at 1.
  apply map_ext. intros k. lia.
Qed.

(** ** Segment building and the noise gate *)

Lemma map_nth_seq {A : Type} (l : list A) (d : A) :
  map (fun i => nth i l d) (seq 0 (List.length l)) = l.
Proof.
  induction l as [|x l IH] using rev_ind; [reflexivity|].
  rewrite length_app, Nat.add_comm. cbn [List.length Nat.add].
  rewrite seq_S, map_app. cbn [map Nat.add]. f_equal.
  - rewrite <- IH at 2. apply map_ext_in. intros i Hi.
    apply in_seq in Hi. apply app_nth1. lia.
  - f_equal. replace (List.length l) with (List.length l + 0)%nat by lia.
    rewrite app_nth2_plus. reflexivity.
Qed.

Lemma fold_push {A B : Type} (f : list A -> B -> list A) (g : B -> list A)
    (l : list B) (acc : list A) :
  (forall acc i, f acc i = acc ++ g i) ->
  fold_left f l acc = acc ++ flat_map g l.
Proof.
  intros Hf. revert acc. induction l as [|x l IH]; intros acc; simpl.
  - now rewrite app_nil_r.
  - rewrite IH, Hf, app_assoc. reflexivity.
Qed.


Lemma gatedOut_inGate (lo hi f : Q) :
  0 < lo -> gatedOut lo hi (Some f) = negb (inGate lo hi f).
Proof.
  intros Hlo. unfold gatedOut, inGate.
  destruct (Qeq_bool f 0) eqn:E0, (Qltb f lo) eqn:E1, (Qltb hi f) eqn:E2,
    (Qle_bool lo f) eqn:E3, (Qle_bool f hi) eqn:E4; try reflexivity; exfalso;
    try apply Qeq_bool_iff in E0; try apply Qltb_lt in E1; try apply Qltb_lt in E2;
    try apply Qltb_ge in E1; try apply Qltb_ge in E2;
    try apply Qle_bool_iff in E3; try apply Qle_bool_iff in E4;
    try (apply not_true_iff_false in E3; apply E3, Qle_bool_iff);
    try (apply not_true_iff_false in E4; apply E4, Qle_bool_iff);
    lra.
Qed.

Lemma pushFileSegment_spec (timePerFrame : Q) (pitches : list (option Q))
    (segments : list Segment.t) (i : nat) :
  pushFileSegment timePerFrame pitches segments i
  = segments ++ frameSegment timePerFrame 60 1100 i (nth i pitches None).
Proof.
  unfold pushFileSegment, frameSegment.
  destruct (nth i pitches None) as [f|]; [|simpl; now rewrite app_nil_r].
  rewrite gatedOut_inGate by reflexivity.
  destruct (inGate 60 1100 f); simpl; [reflexivity | now rewrite app_nil_r].
Qed.

Lemma fileSegments_spec (sampleRate : Q) (pitches : list (option Q)) :
  fileSegments sampleRate pitches
  = flat_map (fun i => frameSegment (natQ bufferSize / sampleRate) 60 1100 i
                         (nth i pitches None))
      (seq 0 (List.length pitches)).
Proof.
  unfold fileSegments. apply (fold_push _ _ _ []).
  intros acc i. apply pushFileSegment_spec.
Qed.

Lemma buildRawSegments_spec (timePerHop : Q) (pitches : list Frame.t) :
  buildRawSegments timePerHop pitches = flat_map (rawSegmentOf timePerHop) pitches.
Proof.
  unfold buildRawSegments.
  rewrite (fold_push _ (fun i => rawSegmentOf timePerHop (nth i pitches (Frame.mk 0 None)))).
  - cbn [app].
    transitivity (flat_map (rawSegmentOf timePerHop)
                    (map (fun i => nth i pitches (Frame.mk 0 None))
                         (seq 0 (List.length pitches)))).
    + rewrite !flat_map_concat_map, map_map. reflexivity.
    + f_equal. apply map_nth_seq.
  - intros acc i. unfold pushRawSegment, rawSegmentOf.
    destruct (gatedOut 50 1200 _); [now rewrite app_nil_r | reflexivity].
Qed.




Lemma nth_map_seq {A : Type} (F : nat -> A) (n i : nat) (d : A) :
  (i < n)%nat -> nth i (map F (seq 0 n)) d = F i.
Proof.
  intros Hi. rewrite (nth_indep _ d (F 0%nat)) by (rewrite length_map, length_seq; exact Hi).
  rewrite map_nth, seq_nth by exact Hi. reflexivity.
Qed.

Lemma inGate_true (lo hi f : Q) : inGate lo hi f = true <-> lo <= f /\ f <= hi.
Proof. unfold inGate. rewrite andb_true_iff, !Qle_bool_iff. reflexivity. Qed.



(** ** The median filter *)

Lemma sortNum_three (a b c : Q) :
  exists x y z,
    sortNum [a; b; c] = [x; y; z]
    /\ Permutation [x; y; z] [a; b; c] /\ x <= y /\ y <= z.
Proof.
  unfold sortNum. cbn [fold_left insertNum].
  destruct (Qltb b a) eqn:Eba; cbn [insertNum].
  - destruct (Qltb c b) eqn:Ecb; [|destruct (Qltb c a) eqn:Eca];
      do 3 eexists; (split; [reflexivity|]);
      try apply Qltb_lt in Eba; try apply Qltb_lt in Ecb;
      try apply Qltb_ge in Ecb; try apply Qltb_lt in Eca;
      try apply Qltb_ge in Eca.
    + split; [|lra].
      apply perm_trans with [b; c; a]; [apply perm_swap|].
      apply perm_trans with [b; a; c]; [apply perm_skip, perm_swap | apply perm_swap].
    + split; [|lra].
      apply perm_trans with [b; a; c]; [apply perm_skip, perm_swap | apply perm_swap].
    + split; [apply perm_swap | lra].
  - destruct (Qltb c a) eqn:Eca; [|destruct (Qltb c b) eqn:Ecb];
      do 3 eexists; (split; [reflexivity|]);
      try apply Qltb_ge in Eba; try apply Qltb_lt in Ecb;
      try apply Qltb_ge in Ecb; try apply Qltb_lt in Eca;
      try apply Qltb_ge in Eca.
    + split; [|lra].
      apply perm_trans with [a; c; b]; [apply perm_swap | apply perm_skip, perm_swap].
    + split; [apply perm_skip, perm_swap | lra].
    + split; [apply Permutation_refl | lra].
Qed.

Lemma sortNum_median (a b c : Q) : isMedian3 (nth 1 (sortNum [a; b; c]) 0) a b c.
Proof.
  destruct (sortNum_three a b c) as (x & y & z & -> & Hp & Hxy & Hyz).
  exists x, z. cbn [nth]. auto.
Qed.

Lemma medianFilter_length (raw : list Segment.t) :
  List.length (medianFilter raw) = List.length raw.
Proof. unfold medianFilter. rewrite length_map, length_seq. reflexivity. Qed.

Lemma medianFilter_nth (raw : list Segment.t) (i : nat) :
  (i < List.length raw)%nat ->
  nth i (medianFilter raw) noSegment = smoothAt raw i.
Proof. intros Hi. unfold medianFilter. apply nth_map_seq, Hi. Qed.

(** C5. The median filter keeps the segments, their order and their times,
    and gives segment [i] the median of the raw frequencies at [i - 1], [i]
    and [i + 1], the segment's own frequency standing in for a missing
    neighbour; the spike of [220, 880, 225] becomes 225. *)
Theorem median_smoother (raw : list Segment.t) :
  List.length (medianFilter raw) = List.length raw
  /\ (forall i,
        (i < List.length raw)%nat ->
        let r := nth i raw noSegment in
        let s := nth i (medianFilter raw) noSegment in
        let prev := if (i =? 0)%nat then Segment.freq r
                    else Segment.freq (nth (i - 1) raw noSegment) in
        let next := if (i =? List.length raw - 1)%nat then Segment.freq r
                    else Segment.freq (nth (i + 1) raw noSegment) in
        Segment.startTime s = Segment.startTime r
        /\ Segment.endTime s = Segment.endTime r
        /\ isMedian3 (Segment.freq s) prev (Segment.freq r) next)
  /\ (forall t0 t1 t2 t3 t4 t5,
        map Segment.freq
          (medianFilter [Segment.mk t0 t1 220; Segment.mk t2 t3 880;
                         Segment.mk t4 t5 225])
        = [220; 225; 225]).
Proof.
  split; [apply medianFilter_length|]. split.
  - intros i Hi. cbn zeta. rewrite (medianFilter_nth raw i Hi).
    unfold smoothAt. cbn [Segment.startTime Segment.endTime Segment.freq].
    split; [reflexivity|]. split; [reflexivity|].
    replace (0 <? i)%nat with (negb (i =? 0)%nat)
      by (destruct (Nat.eqb_spec i 0), (Nat.ltb_spec 0 i); simpl; try reflexivity; lia).
    replace (i <? List.length raw - 1)%nat with (negb (i =? List.length raw - 1)%nat)
      by (destruct (Nat.eqb_spec i (List.length raw - 1)),
                   (Nat.ltb_spec i (List.length raw - 1)); simpl; try reflexivity; lia).
    destruct (i =? 0)%nat, (i =? List.length raw - 1)%nat; cbn [negb];
      apply sortNum_median.
  - intros. reflexivity.
Qed.

(** ** Gap interpolation *)





(** ** Time order *)













(** ** Segments on a grid *)



Lemma incrFrom_weaken (lo lo' : nat) (ks : list nat) :
  (lo' <= lo)%nat -> incrFrom lo ks -> incrFrom lo' ks.
Proof. destruct ks as [|k ks]; [auto|]. intros H [H1 H2]. split; [lia | exact H2]. Qed.


Lemma gridded_weaken (h : Q) (lo lo' : nat) (l : list Segment.t) :
  (lo' <= lo)%nat -> gridded h lo l -> gridded h lo' l.
Proof.
  intros H (ks & Hf & Hi). exists ks. split; [exact Hf|].
  apply (incrFrom_weaken lo); assumption.
Qed.




Lemma Forall2_map_both {A B C : Type} (R : B -> C -> Prop) (f : A -> B)
    (g : A -> C) (l : list A) :
  (forall x, In x l -> R (f x) (g x)) -> Forall2 R (map f l) (map g l).
Proof.
  induction l as [|x l IH]; intros H; [constructor|].
  constructor; [apply H; now left | apply IH; intros y Hy; apply H; now right].
Qed.
















(** ** Estimator calls *)

Lemma ceil_div_step (a stepSize : nat) :
  (0 < stepSize)%nat -> (0 < a)%nat ->
  ((a + stepSize - 1) / stepSize
   = S ((a - stepSize + stepSize - 1) / stepSize))%nat.
Proof.
  intros Hs Ha. destruct (Nat.le_gt_cases stepSize a) as [H | H].
  - replace (a + stepSize - 1)%nat
      with ((a - stepSize + stepSize - 1) + 1 * stepSize)%nat by lia.
    rewrite Nat.div_add by lia. lia.
  - replace (a - stepSize + stepSize - 1)%nat with (stepSize - 1)%nat by lia.
    rewrite (Nat.div_small (stepSize - 1)) by lia.
    symmetry. apply (Nat.div_unique _ _ 1 (a - 1)); lia.
Qed.

(** The number of iterations of a loop [for (i = i0; i < len; i += step)]. *)
Lemma frameLoop_count {A : Type} (len stepSize : nat) (body : nat -> A) :
  (0 < stepSize)%nat ->
  forall fuel i,
    (len <= i + fuel)%nat ->
    List.length (frameLoop fuel (fun i => (i <? len)%nat) stepSize body i)
    = ((len - i + stepSize - 1) / stepSize)%nat.
Proof.
  intros Hs. induction fuel as [|fuel IH]; intros i Hi.
  - cbn [frameLoop List.length]. replace (len - i)%nat with 0%nat by lia.
    symmetry. apply Nat.div_small. lia.
  - cbn [frameLoop]. destruct (Nat.ltb_spec i len) as [Hlt | Hge].
    + cbn [List.length]. rewrite IH by lia.
      rewrite (ceil_div_step (len - i) stepSize Hs) by lia.
      do 2 f_equal. lia.
    + cbn [List.length]. replace (len - i)%nat with 0%nat by lia.
      symmetry. apply Nat.div_small. lia.
Qed.

Lemma fileChunks_count (buffer : AudioBuffer.t) :
  List.length (fileChunks buffer)
  = ((List.length (AudioBuffer.channelData buffer) + 2047) / 2048)%nat.
Proof.
  unfold fileChunks. rewrite frameLoop_count by (unfold bufferSize; lia).
  unfold bufferSize. f_equal. lia.
Qed.

Lemma userPitches_calls (YIN : Detector) (sampleRate : Q) (rawData : list Q) :
  map Frame.freq (userPitches YIN sampleRate rawData)
  = map (YIN (mkYinConfig sampleRate (Some (15 # 100)) (Some (5 # 100))))
        (userChunks rawData).
Proof. unfold userPitches, userChunks. rewrite !map_map. reflexivity. Qed.

(** C9, as the code has it.  The analysis checks neither the sample rate
    nor the window and hop sizes.  Whatever the sample rate, the file
    analysis calls the detector once per chunk of 2048 samples, that is
    [ceil(length / 2048)] times, and returns one detection per call; the
    recording analysis calls it once per frame; the window and hop sizes of
    the recording analysis are the constants 2048 and 512, so the hop never
    exceeds the window. *)
Theorem no_configuration_check :
  (forall YIN buffer,
     fst (processBufferToSegments YIN buffer)
     = map (YIN (mkYinConfig (AudioBuffer.sampleRate buffer) None None))
           (fileChunks buffer)
     /\ List.length (fileChunks buffer)
        = ((List.length (AudioBuffer.channelData buffer) + 2047) / 2048)%nat)
  /\ (forall sampleRate sampleRate' channelData,
        fileChunks (AudioBuffer.mk sampleRate channelData)
        = fileChunks (AudioBuffer.mk sampleRate' channelData))
  /\ (forall YIN sampleRate rawData,
        map Frame.freq (userPitches YIN sampleRate rawData)
        = map (YIN (mkYinConfig sampleRate (Some (15 # 100)) (Some (5 # 100))))
              (userChunks rawData))
  /\ (hopSize <= windowSize)%nat.
Proof.
  split; [|split; [|split]].
  - intros YIN buffer. split; [reflexivity | apply fileChunks_count].
  - reflexivity.
  - apply userPitches_calls.
  - unfold hopSize, windowSize. lia.
Qed.

(** A buffer of one sample with the sample rate -8000: the detector is
    called on the chunk, and its detection and a segment are returned. *)
Lemma invalid_sample_rate_is_analyzed :
  ~ (forall YIN buffer,
       AudioBuffer.sampleRate buffer <= 0 ->
       fileChunks buffer = []
       /\ processBufferToSegments YIN buffer = ([], [])).
Proof.
  intros H.
  destruct (H toneDetector (AudioBuffer.mk (-8000) [1 # 2])) as [Hcalls _].
  - discriminate.
  - vm_compute in Hcalls. discriminate.
Qed.

(** ** Every pipeline segment is within the gates *)

Lemma gatedOut_false (lo hi f : Q) :
  0 < lo -> gatedOut lo hi (Some f) = false -> lo <= f /\ f <= hi.
Proof.
  intros Hlo H. rewrite gatedOut_inGate in H by exact Hlo.
  apply negb_false_iff, inGate_true in H. exact H.
Qed.

Lemma fileSegments_audible (sampleRate : Q) (pitches : list (option Q)) :
  Forall audible (fileSegments sampleRate pitches).
Proof.
  rewrite fileSegments_spec. apply Forall_flat_map, Forall_forall.
  intros i _. unfold frameSegment.
  destruct (nth i pitches None) as [f|]; [|constructor].
  destruct (inGate 60 1100 f) eqn:E; [|constructor].
  apply inGate_true in E. constructor; [|constructor].
  unfold audible. cbn [Segment.freq]. lra.
Qed.






(** The runs of segments within the gates are made of frequencies of at
    least 50 Hz, so their mean has a non-negative MIDI number. *)
Lemma audible_runs (segs run : list Segment.t) :
  Forall audible segs -> In run (runsOf segs) ->
  Forall (fun s => 50 <= Segment.freq s) run.
Proof.
  intros Hsegs Hrun. rewrite <- (runsOf_concat segs) in Hsegs.
  rewrite Forall_forall in Hsegs. apply Forall_forall. intros s Hs.
  apply Hsegs, in_concat. exists run. split; assumption.
Qed.

(** * Further properties of the code *)

(** ** Peak normalisation *)

Lemma Qltb_Qeq (a a' b b' : Q) : a == a' -> b == b' -> Qltb a b = Qltb a' b'.
Proof.
  intros Ha Hb. destruct (Qltb a b) eqn:E, (Qltb a' b') eqn:E'; try reflexivity.
  - apply Qltb_lt in E. apply Qltb_ge in E'. rewrite Ha, Hb in E. lra.
  - apply Qltb_ge in E. apply Qltb_lt in E'. rewrite Ha, Hb in E. lra.
Qed.

(** The loop of [maxAmp] from a running maximum [m]. *)
Lemma maxAmp_from (rawData : list Q) (m : Q) :
  let r := fold_left (fun m x => if Qltb m (Qabs x) then Qabs x else m) rawData m in
  m <= r
  /\ Forall (fun x => Qabs x <= r) rawData
  /\ (r = m \/ exists x, In x rawData /\ r = Qabs x).
Proof.
  revert m. induction rawData as [|x l IH]; intros m; cbn zeta.
  - split; [apply Qle_refl|]. split; [constructor | left; reflexivity].
  - cbn [fold_left]. destruct (Qltb m (Qabs x)) eqn:E.
    + apply Qltb_lt in E. destruct (IH (Qabs x)) as (H1 & H2 & H3).
      split; [lra|]. split; [constructor; assumption|].
      right. destruct H3 as [-> | (y & Hy & ->)].
      * exists x. split; [now left | reflexivity].
      * exists y. split; [now right | reflexivity].
    + apply Qltb_ge in E. destruct (IH m) as (H1 & H2 & H3).
      split; [exact H1|]. split; [constructor; [lra | exact H2]|].
      destruct H3 as [-> | (y & Hy & ->)]; [left; reflexivity|].
      right. exists y. split; [now right | reflexivity].
Qed.

(** X1. [maxAmp] is the largest absolute value of the samples: no sample
    exceeds it in absolute value, it is never negative, and for a non-empty
    buffer it is the absolute value of one of the samples. *)
Theorem maxAmp_is_peak (rawData : list Q) :
  0 <= maxAmp rawData
  /\ Forall (fun x => Qabs x <= maxAmp rawData) rawData
  /\ (rawData = [] \/ exists x, In x rawData /\ maxAmp rawData == Qabs x).
Proof.
  destruct (maxAmp_from rawData 0) as (H1 & H2 & H3). fold (maxAmp rawData) in *.
  split; [exact H1|]. split; [exact H2|].
  destruct rawData as [|x0 l]; [left; reflexivity | right].
  destruct H3 as [H0 | (x & Hx & ->)].
  - exists x0. split; [now left|].
    inversion H2 as [|? ? Hx0 _]; subst. rewrite H0 in Hx0 |- *.
    pose proof (Qabs_nonneg x0) as Hn. lra.
  - exists x. split; [exact Hx | reflexivity].
Qed.

Lemma maxAmp_scale (g : Q) (rawData : list Q) (m m' : Q) :
  0 < g -> m' == g * m ->
  fold_left (fun m x => if Qltb m (Qabs x) then Qabs x else m)
    (map (fun x => x * g) rawData) m'
  == g * fold_left (fun m x => if Qltb m (Qabs x) then Qabs x else m) rawData m.
Proof.
  intros Hg. revert m m'. induction rawData as [|x l IH]; intros m m' Hm.
  - exact Hm.
  - cbn [map fold_left].
    assert (Ex : Qabs (x * g) == g * Qabs x).
    { rewrite Qabs_Qmult, (Qabs_pos g) by lra. ring. }
    assert (Eb : Qltb m' (Qabs (x * g)) = Qltb m (Qabs x)).
    { destruct (Qltb m' (Qabs (x * g))) eqn:E, (Qltb m (Qabs x)) eqn:E';
        try reflexivity.
      - apply Qltb_lt in E. apply Qltb_ge in E'. rewrite Ex, Hm in E. nra.
      - apply Qltb_ge in E. apply Qltb_lt in E'. rewrite Ex, Hm in E. nra. }
    rewrite Eb. destruct (Qltb m (Qabs x)); apply IH; [exact Ex | exact Hm].
Qed.

Lemma normalize_loud (rawData : list Q) :
  1 # 1000 < maxAmp rawData ->
  normalize rawData = map (fun x => x * ((9 # 10) / maxAmp rawData)) rawData
  /\ maxAmp (normalize rawData) == 9 # 10.
Proof.
  intros H. unfold normalize. apply Qltb_lt in H. rewrite H. apply Qltb_lt in H.
  split; [reflexivity|].
  unfold maxAmp at 1. rewrite (maxAmp_scale _ rawData 0 0).
  - fold (maxAmp rawData). field. lra.
  - apply Qlt_shift_div_l; lra.
  - ring.
Qed.



(** X3. Normalising twice is normalising once: the second pass leaves every
    sample at its value. *)
Theorem normalize_idempotent (rawData : list Q) :
  Forall2 Qeq (normalize (normalize rawData)) (normalize rawData).
Proof.
  assert (Hrefl : forall l : list Q, Forall2 Qeq l l).
  { induction l; constructor; [reflexivity | assumption]. }
  destruct (Qlt_le_dec (1 # 1000) (maxAmp rawData)) as [H | H].
  - destruct (normalize_loud rawData H) as [_ Hpeak].
    assert (H' : 1 # 1000 < maxAmp (normalize rawData)) by (rewrite Hpeak; reflexivity).
    destruct (normalize_loud (normalize rawData) H') as [E _]. rewrite E.
    rewrite <- (map_id (normalize rawData)) at 2.
    apply (Forall2_map_both Qeq _ (fun x => x)). intros x _. rewrite Hpeak. field.
  - apply Qltb_ge in H. unfold normalize at 2. rewrite H.
    unfold normalize. rewrite H. apply Hrefl.
Qed.

(** ** Chunks and frames *)

Lemma frameLoop_ext {A : Type} (fuel : nat) (cond cond' : nat -> bool)
    (stepSize : nat) (body : nat -> A) (i : nat) :
  (forall j, cond j = cond' j) ->
  frameLoop fuel cond stepSize body i = frameLoop fuel cond' stepSize body i.
Proof.
  intros H. revert i. induction fuel as [|fuel IH]; intros i; [reflexivity|].
  cbn [frameLoop]. rewrite H, IH. reflexivity.
Qed.

(** The chunks of a loop over a whole buffer put the buffer together again. *)
Lemma chunks_concat (data : list Q) (stepSize : nat) :
  (0 < stepSize)%nat ->
  forall fuel i,
    (List.length data <= i + fuel)%nat ->
    concat (frameLoop fuel (fun i => (i <? List.length data)%nat) stepSize
              (fun i => slice data i (i + stepSize)) i)
    = skipn i data.
Proof.
  intros Hs. induction fuel as [|fuel IH]; intros i Hi.
  - cbn [frameLoop concat]. symmetry. apply skipn_all2. lia.
  - cbn [frameLoop]. destruct (Nat.ltb_spec i (List.length data)) as [Hlt | Hge].
    + cbn [concat]. rewrite IH by lia. unfold slice.
      replace (i + stepSize - i)%nat with stepSize by lia.
      replace (i + stepSize)%nat with (stepSize + i)%nat by lia.
      rewrite <- skipn_skipn. apply firstn_skipn.
    + cbn [concat]. symmetry. apply skipn_all2. lia.
Qed.

Lemma slice_length (data : list Q) (i j : nat) :
  List.length (slice data i j) = Nat.min (j - i) (List.length data - i).
Proof. unfold slice. rewrite length_firstn, length_skipn. reflexivity. Qed.

Lemma fileChunks_nth (buffer : AudioBuffer.t) (k : nat) :
  (k < List.length (fileChunks buffer))%nat ->
  nth k (fileChunks buffer) []
  = slice (AudioBuffer.channelData buffer) (k * bufferSize)
      (k * bufferSize + bufferSize).
Proof.
  intros Hk. unfold fileChunks in *. rewrite frameLoop_map in Hk |- *.
  rewrite length_map in Hk.
  set (offsets := frameLoop _ _ _ (fun j => j) 0%nat) in *.
  pose proof (frameLoop_offsets (List.length (AudioBuffer.channelData buffer))
    (fun i => (i <? List.length (AudioBuffer.channelData buffer))%nat)
    bufferSize 0) as E. cbn zeta in E. fold offsets in E.
  rewrite E. rewrite map_map. rewrite nth_map_seq by exact Hk. reflexivity.
Qed.

(** X4. The chunks handed to the detector by the file analysis are the
    channel data cut into pieces in order: put together they give the data
    back, none is empty or longer than 2048 samples, and every chunk before
    the last has exactly 2048 samples. *)
Theorem file_chunks_partition (buffer : AudioBuffer.t) :
  concat (fileChunks buffer) = AudioBuffer.channelData buffer
  /\ Forall (fun c => (1 <= List.length c <= 2048)%nat) (fileChunks buffer)
  /\ (forall k, (S k < List.length (fileChunks buffer))%nat ->
        List.length (nth k (fileChunks buffer) []) = 2048%nat).
Proof.
  pose proof (fileChunks_count buffer) as Hcount.
  set (data := AudioBuffer.channelData buffer) in *.
  assert (Hn : forall k, (k < List.length (fileChunks buffer))%nat ->
             (k * 2048 < List.length data)%nat).
  { intros k Hk. rewrite Hcount in Hk.
    assert (H : ((List.length data + 2047) / 2048 * 2048
                 <= List.length data + 2047)%nat).
    { rewrite Nat.mul_comm. apply Nat.Div0.mul_div_le. }
    nia. }
  split; [|split].
  - unfold fileChunks. fold data.
    rewrite (chunks_concat data bufferSize) by (unfold bufferSize; lia).
    reflexivity.
  - apply Forall_forall. intros c Hc.
    destruct (In_nth _ _ [] Hc) as (k & Hk & <-).
    rewrite (fileChunks_nth buffer k Hk), slice_length. fold data.
    specialize (Hn k Hk). unfold bufferSize. lia.
  - intros k Hk. rewrite (fileChunks_nth buffer k) by lia.
    rewrite slice_length. fold data.
    specialize (Hn (S k) Hk). unfold bufferSize. lia.
Qed.

Lemma frameLoop_cond (fuel : nat) (cond : nat -> bool) (stepSize i : nat) :
  Forall (fun j => cond j = true) (frameLoop fuel cond stepSize (fun j => j) i).
Proof.
  revert i. induction fuel as [|fuel IH]; intros i; [constructor|].
  cbn [frameLoop]. destruct (cond i) eqn:E; constructor; [exact E | apply IH].
Qed.

Lemma userOffsets_count (rawData : list Q) :
  List.length (userOffsets rawData)
  = if (List.length rawData <? 2048)%nat then 0%nat
    else ((List.length rawData - 2048) / 512 + 1)%nat.
Proof.
  unfold userOffsets.
  rewrite (frameLoop_ext _ _
    (fun i => (i <? List.length rawData + 1 - windowSize)%nat)).
  - rewrite frameLoop_count by (unfold hopSize, windowSize; lia).
    unfold hopSize, windowSize.
    destruct (Nat.ltb_spec (List.length rawData) 2048) as [H | H].
    + replace (List.length rawData + 1 - 2048 - 0 + 512 - 1)%nat with 511%nat by lia.
      reflexivity.
    + replace (List.length rawData + 1 - 2048 - 0 + 512 - 1)%nat
        with ((List.length rawData - 2048) + 1 * 512)%nat by lia.
      rewrite Nat.div_add by lia. reflexivity.
  - intros j. unfold windowSize.
    destruct (Nat.leb_spec (j + 2048) (List.length rawData)),
             (Nat.ltb_spec j (List.length rawData + 1 - 2048)); try reflexivity; lia.
Qed.

Lemma normalize_length (rawData : list Q) :
  List.length (normalize rawData) = List.length rawData.
Proof.
  unfold normalize. destruct (Qltb _ _); [apply length_map | reflexivity].
Qed.

(** X5. The frames of a recording.  Every chunk handed to the detector is a
    full window of 2048 samples, frame [k] starting at sample [512 k]; there
    are [(length - 2048) / 512 + 1] frames, and none when the recording is
    shorter than one window, in which case the analysis returns no segment
    at all. *)
Theorem recording_frames (rawData : list Q) :
  Forall (fun c => List.length c = 2048%nat) (userChunks rawData)
  /\ List.length (userChunks rawData)
     = (if (List.length rawData <? 2048)%nat then 0%nat
        else ((List.length rawData - 2048) / 512 + 1)%nat)
  /\ (forall k, (k < List.length (userChunks rawData))%nat ->
        nth k (userChunks rawData) []
        = slice rawData (k * 512) (k * 512 + 2048))
  /\ (forall YIN sampleRate,
        (List.length rawData < 2048)%nat ->
        analyzeUserAudio YIN (AudioBuffer.mk sampleRate rawData) = []).
Proof.
  split; [|split; [|split]].
  - unfold userChunks. apply Forall_map.
    eapply Forall_impl; [|apply frameLoop_cond]. intros i Hi. cbn beta in Hi.
    apply Nat.leb_le in Hi. rewrite slice_length. unfold windowSize in *. lia.
  - unfold userChunks. rewrite length_map. apply userOffsets_count.
  - intros k Hk. unfold userChunks in *. rewrite length_map in Hk.
    rewrite (userOffsets_spec rawData), map_map.
    rewrite nth_map_seq by exact Hk. reflexivity.
  - intros YIN sampleRate Hshort. unfold analyzeUserAudio.
    cbn [AudioBuffer.sampleRate AudioBuffer.channelData].
    assert (E : userOffsets (normalize rawData) = []).
    { apply length_zero_iff_nil. rewrite userOffsets_count, normalize_length.
      apply Nat.ltb_lt in Hshort. rewrite Hshort. reflexivity. }
    unfold userPitches. rewrite E. reflexivity.
Qed.

(** ** Silence *)

Lemma flat_map_nil {A B : Type} (f : A -> list B) (l : list A) :
  (forall x, In x l -> f x = []) -> flat_map f l = [].
Proof.
  induction l as [|x l IH]; intros H; [reflexivity|].
  cbn [flat_map]. rewrite (H x) by now left.
  apply IH. intros y Hy. apply H. now right.
Qed.

Lemma gatedOut_narrower (freq : option Q) :
  gatedOut 50 1200 freq = true -> gatedOut 60 1100 freq = true.
Proof.
  destruct freq as [f|]; [|reflexivity]. intros H.
  destruct (gatedOut 60 1100 (Some f)) eqn:E; [reflexivity|].
  apply gatedOut_false in E; [|reflexivity].
  rewrite gatedOut_inGate in H by reflexivity.
  apply negb_true_iff in H. apply not_true_iff_false in H.
  exfalso. apply H, inGate_true. lra.
Qed.

Lemma fileSegments_all_gated (sampleRate : Q) (pitches : list (option Q)) :
  Forall (fun p => gatedOut 60 1100 p = true) pitches ->
  fileSegments sampleRate pitches = [].
Proof.
  intros Hall. rewrite fileSegments_spec. apply flat_map_nil. intros i Hi.
  apply in_seq in Hi. rewrite Forall_forall in Hall.
  assert (Hg : gatedOut 60 1100 (nth i pitches None) = true)
    by (apply Hall, nth_In; lia).
  unfold frameSegment. destruct (nth i pitches None) as [f|]; [|reflexivity].
  rewrite gatedOut_inGate in Hg by reflexivity.
  apply negb_true_iff in Hg. rewrite Hg. reflexivity.
Qed.

(** X6. Silence is not an error: when every detection is absent or outside
    50-1200 Hz, both analyses return no segment and the aggregation returns
    no event. *)
Theorem silence_gives_no_events (YIN : Detector) (buffer : AudioBuffer.t)
    (cfg : LabelConfig) :
  (forall config chunk, gatedOut 50 1200 (YIN config chunk) = true) ->
  snd (processBufferToSegments YIN buffer) = []
  /\ analyzeUserAudio YIN buffer = []
  /\ stableNotes cfg (snd (processBufferToSegments YIN buffer)) = []
  /\ stableNotes cfg (analyzeUserAudio YIN buffer) = [].
Proof.
  intros Hsilent.
  assert (Hfile : snd (processBufferToSegments YIN buffer) = []).
  { unfold processBufferToSegments. cbn [snd]. apply fileSegments_all_gated.
    apply Forall_map, Forall_forall. intros chunk _.
    apply gatedOut_narrower, Hsilent. }
  assert (Huser : analyzeUserAudio YIN buffer = []).
  { unfold analyzeUserAudio. rewrite buildRawSegments_spec.
    rewrite flat_map_nil; [reflexivity|].
    intros p Hp. unfold userPitches in Hp. apply in_map_iff in Hp.
    destruct Hp as (i & <- & _). unfold rawSegmentOf. cbn [Frame.freq].
    rewrite Hsilent. reflexivity. }
  rewrite Hfile, Huser. repeat split; reflexivity.
Qed.

(** The two-tone samples with a detector that finds nothing. *)
Lemma silence_gives_no_events_witness :
  snd (processBufferToSegments silentDetector twoToneBuffer) = []
  /\ analyzeUserAudio silentDetector twoToneBuffer = []
  /\ stableNotes (mkLabelConfig true "C")
       (snd (processBufferToSegments silentDetector twoToneBuffer)) = []
  /\ stableNotes (mkLabelConfig true "C")
       (analyzeUserAudio silentDetector twoToneBuffer) = [].
Proof.
  apply (silence_gives_no_events silentDetector twoToneBuffer (mkLabelConfig true "C")).
  intros config chunk. reflexivity.
Defined.

(** ** Shape of the segments *)


Lemma fileSegments_duration (sampleRate : Q) (pitches : list (option Q)) :
  Forall (fun s => Segment.endTime s - Segment.startTime s
                   == natQ bufferSize / sampleRate)
         (fileSegments sampleRate pitches).
Proof.
  rewrite fileSegments_spec.
  apply Forall_flat_map, Forall_forall. intros i _. unfold frameSegment.
  destruct (nth i pitches None) as [f|]; [|constructor].
  destruct (inGate 60 1100 f); constructor; [|constructor].
  cbn [Segment.startTime Segment.endTime]. ring.
Qed.





(** ** More on the aggregation *)

(** An event needs a run of at least two segments when no segment alone is
    longer than 0.15 s. *)
Lemma short_segments_need_company (cfg : LabelConfig) (segs : list Segment.t) :
  Forall (fun s => Segment.endTime s - Segment.startTime s <= 15 # 100) segs ->
  Forall (fun e =>
            exists run,
              In run (runsOf segs) /\ processRun cfg [] run = [e]
              /\ (2 <= List.length run)%nat)
         (stableNotes cfg segs).
Proof.
  intros Hshort. apply Forall_forall. intros e He.
  destruct (stableNotes_In cfg segs e He) as (run & Hin & [Hne _] & Hspan & Hp).
  exists run. split; [exact Hin|]. split; [exact Hp|].
  destruct run as [|s [|s' rest]]; [congruence | | cbn; lia].
  exfalso. unfold runSpan in Hspan. cbn [last hd] in Hspan.
  rewrite Forall_forall in Hshort.
  assert (Hs : In s segs).
  { rewrite <- (runsOf_concat segs). apply in_concat. exists [s].
    split; [exact Hin | now left]. }
  specialize (Hshort s Hs). cbn beta in Hshort. lra.
Qed.

(** X9. A pitch detected in a single frame never becomes a note: in the
    file analysis at a sample rate of at least 13654 Hz (a frame of 2048
    samples then lasts at most 0.15 s) every event comes from a run of at
    least two segments. *)
Theorem single_frame_is_no_note (YIN : Detector) (buffer : AudioBuffer.t)
    (cfg : LabelConfig) :
  natQ bufferSize / AudioBuffer.sampleRate buffer <= 15 # 100 ->
  let segs := snd (processBufferToSegments YIN buffer) in
  Forall (fun e =>
            exists run,
              In run (runsOf segs) /\ processRun cfg [] run = [e]
              /\ (2 <= List.length run)%nat)
         (stableNotes cfg segs).
Proof.
  intros Hrate segs. apply short_segments_need_company.
  unfold segs, processBufferToSegments. cbn [snd].
  eapply Forall_impl; [|apply fileSegments_duration].
  intros s Hs. cbn beta in Hs. rewrite Hs. exact Hrate.
Qed.

(** The two-tone samples played at 44100 Hz. *)
Lemma single_frame_is_no_note_witness :
  let segs := snd (processBufferToSegments toneDetector
                     (AudioBuffer.mk 44100 (AudioBuffer.channelData twoToneBuffer))) in
  Forall (fun e =>
            exists run,
              In run (runsOf segs)
              /\ processRun (mkLabelConfig false "C") [] run = [e]
              /\ (2 <= List.length run)%nat)
         (stableNotes (mkLabelConfig false "C") segs).
Proof.
  apply (single_frame_is_no_note toneDetector
           (AudioBuffer.mk 44100 (AudioBuffer.channelData twoToneBuffer))
           (mkLabelConfig false "C")).
  vm_compute. discriminate.
Defined.

Lemma processRun_core (cfg cfg' : LabelConfig) (run : list Segment.t) :
  map eventCore (processRun cfg [] run) = map eventCore (processRun cfg' [] run).
Proof.
  unfold processRun. destruct run as [|first rest]; [reflexivity|].
  destruct (Qltb _ _); reflexivity.
Qed.

Lemma map_flat_map {A B C : Type} (f : B -> C) (g : A -> list B) (l : list A) :
  map f (flat_map g l) = flat_map (fun x => map f (g x)) l.
Proof.
  induction l as [|x l IH]; [reflexivity|].
  cbn [flat_map]. rewrite map_app, IH. reflexivity.
Qed.

(** X10. The label settings change labels only: under any two settings the
    events have the same times, average frequencies, MIDI numbers and full
    note names, in the same order; the display label is always the label;
    and with sargam labels off the label is the full note name. *)
Theorem labels_do_not_change_notes (segs : list Segment.t) :
  (forall cfg cfg',
     map eventCore (stableNotes cfg segs) = map eventCore (stableNotes cfg' segs))
  /\ (forall cfg,
        Forall (fun e => Event.displayLabel e = Event.label e)
               (stableNotes cfg segs))
  /\ (forall root,
        Forall (fun e => Event.label e = Event.fullNote e)
               (stableNotes (mkLabelConfig false root) segs)).
Proof.
  split; [|split].
  - intros cfg cfg'. rewrite !stableNotes_flat_map, !map_flat_map.
    apply flat_map_ext. intros run. apply processRun_core.
  - intros cfg. apply Forall_forall. intros e He.
    destruct (stableNotes_In cfg segs e He) as (run & _ & [Hne _] & Hspan & Hp).
    destruct (processRun_emit cfg [] run Hne Hspan) as (e' & Hp' & H).
    rewrite Hp in Hp'. cbn [app] in Hp'. injection Hp' as <-. apply H.
  - intros root. apply Forall_forall. intros e He.
    destruct (stableNotes_In _ segs e He) as (run & _ & [Hne _] & Hspan & Hp).
    destruct (processRun_emit (mkLabelConfig false root) [] run Hne Hspan)
      as (e' & Hp' & _ & _ & _ & _ & _ & Hl & _).
    rewrite Hp in Hp'. cbn [app] in Hp'. injection Hp' as <-.
    rewrite Hl. reflexivity.
Qed.

(** ** The note display *)

Lemma getMidi_audible (f : Q) :
  50 <= f -> f <= 1200 -> exists m, getMidi f = MInt m /\ (31 <= m <= 86)%Z.
Proof.
  intros Hlo Hhi. assert (H0 : 0 < f) by lra.
  exists (roundMidi (f / 440)). split; [apply getMidi_pos, H0|]. split.
  - change 31%Z with (roundMidi (50 / 440)).
    apply roundMidi_mono; [reflexivity|].
    apply Qmult_le_compat_r; [exact Hlo | discriminate].
  - change 86%Z with (roundMidi (1200 / 440)).
    apply roundMidi_mono; [apply div440_pos, H0|].
    apply Qmult_le_compat_r; [exact Hhi | discriminate].
Qed.

(** The events of segments within the gates: MIDI number between 31 and 86,
    and the full note name and label built from it. *)
Lemma audible_event (cfg : LabelConfig) (segs : list Segment.t) (e : Event.t) :
  Forall audible segs -> In e (stableNotes cfg segs) ->
  exists m,
    (31 <= m <= 86)%Z
    /\ getMidi (Event.avgFreq e) = MInt m
    /\ Event.midi e = MInt m
    /\ Event.fullNote e = noteString m
    /\ Event.label e = sargamLabel cfg (MInt m) (noteString m)
    /\ Event.displayLabel e = Event.label e
    /\ 50 <= Event.avgFreq e /\ Event.avgFreq e <= 1200.
Proof.
  intros Hsegs He.
  destruct (stableNotes_In cfg segs e He) as (run & Hin & [Hne _] & Hspan & Hp).
  destruct (processRun_emit cfg [] run Hne Hspan)
    as (e' & Hp' & _ & _ & Havg & Hmidi & Hfull & Hlabel & Hdisp).
  rewrite Hp in Hp'. cbn [app] in Hp'. injection Hp' as <-.
  assert (Hrun : Forall audible run).
  { rewrite <- (runsOf_concat segs) in Hsegs. rewrite Forall_forall in Hsegs.
    apply Forall_forall. intros s Hs. apply Hsegs, in_concat.
    exists run. split; assumption. }
  assert (Hlo : Forall (fun s => 50 <= Segment.freq s) run).
  { eapply Forall_impl; [|exact Hrun]. intros s [H _]. exact H. }
  assert (Hhi : Forall (fun s => Segment.freq s <= 1200) run).
  { eapply Forall_impl; [|exact Hrun]. intros s [_ H]. exact H. }
  destruct (meanFreq_bounds run 50 1200 Hne Hlo Hhi) as [H50 H1200].
  rewrite <- avgFreq_mean, <- Havg in H50, H1200.
  destruct (getMidi_audible _ H50 H1200) as (m & Hm & Hrange).
  exists m. rewrite Hmidi in Hfull, Hlabel |- *. rewrite Hm in Hfull, Hlabel |- *.
  unfold noteString. rewrite <- Hfull.
  repeat split; try assumption; try reflexivity; lia.
Qed.

Lemma getNote_noteString (f : Q) (m : Z) :
  getMidi f = MInt m -> (0 <= m)%Z -> getNote f = NoteStr (noteString m).
Proof.
  intros Hm H0. destruct (getMidi_MInt_inv f m Hm) as [Hf Hr].
  unfold getNote.
  destruct (Qeq_bool f 0) eqn:E0.
  { apply Qeq_bool_iff in E0. rewrite E0 in Hf. discriminate. }
  destruct (Qltb f 0) eqn:E1.
  { apply Qltb_lt in E1. lra. }
  rewrite Hr. unfold noteString. cbn [midiRem12 showOctave].
  rewrite (Z.rem_mod_nonneg m 12) by lia.
  assert (Hc : (0 <= m mod 12 < 12)%Z) by (apply Z.mod_pos_bound; lia).
  destruct (NOTES_entry _ Hc) as (name & Hname).
  rewrite jsIndex_nonneg by lia. rewrite Hname. reflexivity.
Qed.

(** X11. The two note displays agree: for every event of segments within
    the gates, [getNote] of the event's average frequency is the event's
    full note name, a string. *)
Theorem getNote_matches_events (cfg : LabelConfig) (segs : list Segment.t) :
  Forall audible segs ->
  Forall (fun e => getNote (Event.avgFreq e) = NoteStr (Event.fullNote e))
         (stableNotes cfg segs).
Proof.
  intros Hsegs. apply Forall_forall. intros e He.
  destruct (audible_event cfg segs e Hsegs He) as (m & Hr & Hm & _ & Hfull & _).
  rewrite Hfull. apply getNote_noteString; [exact Hm | lia].
Qed.

(** Two frames of 0.1 s at 440 Hz. *)
Lemma getNote_matches_events_witness :
  Forall (fun e => getNote (Event.avgFreq e) = NoteStr (Event.fullNote e))
         (stableNotes (mkLabelConfig true "C")
            [Segment.mk 0 (1 # 10) 440; Segment.mk (1 # 10) (1 # 5) 440]).
Proof.
  apply (getNote_matches_events (mkLabelConfig true "C")
           [Segment.mk 0 (1 # 10) 440; Segment.mk (1 # 10) (1 # 5) 440]).
  repeat constructor; vm_compute; discriminate.
Defined.

Lemma display_main_frequency (sargam : bool) (root note : string) (f f' : Q) :
  Display.main (getDisplayNote sargam root (Some (NoteObj.mk note f)))
  = Display.main (getDisplayNote sargam root (Some (NoteObj.mk note f'))).
Proof.
  unfold getDisplayNote. cbn [NoteObj.note NoteObj.frequency].
  destruct (negb sargam); [reflexivity|].
  destruct (_ || _); reflexivity.
Qed.

Lemma displayAgrees_all :
  forallb (fun root => forallb (displayAgrees root) midiRange) NOTES = true.
Proof. vm_compute. reflexivity. Qed.

Lemma midiRange_In (m : Z) : (31 <= m <= 86)%Z -> In m midiRange.
Proof.
  intros H. unfold midiRange. apply in_map_iff. exists (Z.to_nat m).
  split; [lia|]. apply in_seq. lia.
Qed.

Lemma display_main_label (cfg : LabelConfig) (m : Z) (f : Q) :
  (31 <= m <= 86)%Z ->
  Display.main (getDisplayNote (showSargam cfg) (rootKey cfg)
                  (Some (NoteObj.mk (noteString m) f)))
  = sargamLabel cfg (MInt m) (noteString m).
Proof.
  intros Hm. destruct cfg as [sargam root]. cbn [showSargam rootKey].
  destruct sargam; [|reflexivity].
  destruct (in_dec string_dec root NOTES) as [Hin | Hout].
  - rewrite (display_main_frequency true root _ f 0).
    pose proof displayAgrees_all as Hall. rewrite forallb_forall in Hall.
    specialize (Hall root Hin). rewrite forallb_forall in Hall.
    specialize (Hall m (midiRange_In m Hm)).
    apply String.eqb_eq in Hall. exact Hall.
  - rewrite (sargamLabel_fallback true root _ _ Hout).
    unfold getDisplayNote. cbn [negb NoteObj.note Display.main].
    unfold indexOf at 1. rewrite (indexFrom_absent NOTES root 0 Hout).
    reflexivity.
Qed.

(** X12. The current-note display shows the label of the event: for every
    event of segments within the gates and every label setting, the main
    text that [getDisplayNote] gives for the note that [checkPitch] reports
    is the event's label (the swara, or the full note name when sargam is
    off or the root key is not a note). *)
Theorem display_shows_event_label (cfg : LabelConfig) (segs : list Segment.t) :
  Forall audible segs ->
  Forall (fun e =>
            Display.main (getDisplayNote (showSargam cfg) (rootKey cfg)
                            (Some (noteOfEvent e)))
            = Event.label e)
         (stableNotes cfg segs).
Proof.
  intros Hsegs. apply Forall_forall. intros e He.
  destruct (audible_event cfg segs e Hsegs He)
    as (m & Hr & _ & _ & Hfull & Hlabel & _).
  unfold noteOfEvent. rewrite Hfull, Hlabel. apply display_main_label, Hr.
Qed.

(** Two frames of 0.1 s at 440 Hz, with the root key D. *)
Lemma display_shows_event_label_witness :
  Forall (fun e =>
            Display.main (getDisplayNote true "D" (Some (noteOfEvent e)))
            = Event.label e)
         (stableNotes (mkLabelConfig true "D")
            [Segment.mk 0 (1 # 10) 440; Segment.mk (1 # 10) (1 # 5) 440]).
Proof.
  apply (display_shows_event_label (mkLabelConfig true "D")
           [Segment.mk 0 (1 # 10) 440; Segment.mk (1 # 10) (1 # 5) 440]).
  repeat constructor; vm_compute; discriminate.
Defined.

(** ** The lookup by playback time *)




(** ** More on the median filter *)

Lemma chain_nth {A : Type} (R : A -> A -> Prop) (l : list A) (d : A) (i : nat) :
  chain R l -> (S i < List.length l)%nat -> R (nth i l d) (nth (S i) l d).
Proof.
  revert i. induction l as [|a [|b l] IH]; intros i Hch Hi; cbn in Hi; try lia.
  destruct Hch as [Hab Hch]. destruct i as [|i]; [exact Hab|].
  change (R (nth i (b :: l) d) (nth (S i) (b :: l) d)).
  apply IH; [exact Hch | cbn; lia].
Qed.

Lemma median_of_ascending (a b c : Q) :
  a <= b -> b <= c -> nth 1 (sortNum [a; b; c]) 0 == b.
Proof.
  intros Hab Hbc. unfold sortNum. cbn [fold_left insertNum].
  destruct (Qltb b a) eqn:Eba; cbn [insertNum].
  - apply Qltb_lt in Eba. lra.
  - destruct (Qltb c a) eqn:Eca; [apply Qltb_lt in Eca; cbn [nth]; lra|].
    destruct (Qltb c b) eqn:Ecb; [apply Qltb_lt in Ecb; cbn [nth]; lra|].
    cbn [nth]. reflexivity.
Qed.

Lemma median_of_descending (a b c : Q) :
  b <= a -> c <= b -> nth 1 (sortNum [a; b; c]) 0 == b.
Proof.
  intros Hab Hbc. unfold sortNum. cbn [fold_left insertNum].
  destruct (Qltb b a) eqn:Eba; cbn [insertNum].
  - destruct (Qltb c b) eqn:Ecb; [cbn [nth]; reflexivity|].
    apply Qltb_ge in Ecb.
    destruct (Qltb c a) eqn:Eca; cbn [nth]; [lra|].
    apply Qltb_ge in Eca. apply Qltb_lt in Eba. lra.
  - apply Qltb_ge in Eba.
    destruct (Qltb c a) eqn:Eca; [cbn [nth]; lra|]. apply Qltb_ge in Eca.
    destruct (Qltb c b) eqn:Ecb; cbn [nth]; [lra | reflexivity].
Qed.

(** X14. The median filter leaves a monotone passage alone: when the raw
    frequencies never decrease along the list, or never increase, every
    segment keeps its times and the value of its frequency. *)
Theorem median_keeps_monotone (raw : list Segment.t) :
  chain (fun a b => Segment.freq a <= Segment.freq b) raw
  \/ chain (fun a b => Segment.freq b <= Segment.freq a) raw ->
  Forall2 (fun s r => Segment.startTime s = Segment.startTime r
                      /\ Segment.endTime s = Segment.endTime r
                      /\ Segment.freq s == Segment.freq r)
          (medianFilter raw) raw.
Proof.
  intros Hmono. unfold medianFilter.
  rewrite <- (map_nth_seq raw noSegment) at 3.
  apply Forall2_map_both. intros i Hi. apply in_seq in Hi.
  unfold smoothAt. cbn [Segment.startTime Segment.endTime Segment.freq].
  split; [reflexivity|]. split; [reflexivity|].
  set (at_ := fun k => Segment.freq (nth k raw noSegment)).
  change (nth 1 (sortNum [if (0 <? i)%nat then at_ (i - 1)%nat else at_ i;
                          at_ i;
                          if (i <? List.length raw - 1)%nat
                          then at_ (i + 1)%nat else at_ i]) 0 == at_ i).
  destruct Hmono as [Hup | Hdown].
  - apply median_of_ascending.
    + destruct (Nat.ltb_spec 0 i); [|apply Qle_refl].
      pose proof (chain_nth _ raw noSegment (i - 1) Hup ltac:(lia)) as H'.
      replace (S (i - 1)) with i in H' by lia. exact H'.
    + destruct (Nat.ltb_spec i (List.length raw - 1)); [|apply Qle_refl].
      pose proof (chain_nth _ raw noSegment i Hup ltac:(lia)) as H'.
      replace (S i) with (i + 1)%nat in H' by lia. exact H'.
  - apply median_of_descending.
    + destruct (Nat.ltb_spec 0 i); [|apply Qle_refl].
      pose proof (chain_nth _ raw noSegment (i - 1) Hdown ltac:(lia)) as H'.
      replace (S (i - 1)) with i in H' by lia. exact H'.
    + destruct (Nat.ltb_spec i (List.length raw - 1)); [|apply Qle_refl].
      pose proof (chain_nth _ raw noSegment i Hdown ltac:(lia)) as H'.
      replace (S i) with (i + 1)%nat in H' by lia. exact H'.
Qed.

(** A rising glide of three segments. *)
Lemma median_keeps_monotone_witness :
  Forall2 (fun s r => Segment.startTime s = Segment.startTime r
                      /\ Segment.endTime s = Segment.endTime r
                      /\ Segment.freq s == Segment.freq r)
          (medianFilter [Segment.mk 0 (1 # 10) 220; Segment.mk (1 # 10) (1 # 5) 230;
                         Segment.mk (1 # 5) (3 # 10) 247])
          [Segment.mk 0 (1 # 10) 220; Segment.mk (1 # 10) (1 # 5) 230;
           Segment.mk (1 # 5) (3 # 10) 247].
Proof.
  apply (median_keeps_monotone
           [Segment.mk 0 (1 # 10) 220; Segment.mk (1 # 10) (1 # 5) 230;
            Segment.mk (1 # 5) (3 # 10) 247]).
  left. cbn. repeat split; discriminate.
Defined.

(** ** More on gap filling *)










(** ** The frequency axis of the graph *)



(** ** Cutting the segments into curve paths *)

Lemma pathStep_map {A : Type} (mk : Segment.t -> A)
    (all : list (list Segment.t)) (cur : list Segment.t) (t : Q)
    (seg : Segment.t) :
  pathStep mk (map (map mk) all, map mk cur, t) seg
  = let '(a, c, l) := pathStep (fun s => s) (all, cur, t) seg in
    (map (map mk) a, map mk c, l).
Proof.
  unfold pathStep. rewrite length_map.
  destruct (0 <? List.length cur)%nat; cbn [andb].
  - destruct (Qltb _ 3); rewrite map_app; reflexivity.
  - reflexivity.
Qed.

Lemma fold_pathStep_map {A : Type} (mk : Segment.t -> A)
    (segs : list Segment.t) :
  forall (all : list (list Segment.t)) (cur : list Segment.t) (t : Q),
    fold_left (pathStep mk) segs (map (map mk) all, map mk cur, t)
    = let '(a, c, l) := fold_left (pathStep (fun s => s)) segs (all, cur, t) in
      (map (map mk) a, map mk c, l).
Proof.
  induction segs as [|s segs IH]; intros all cur t; [reflexivity|].
  cbn [fold_left]. rewrite pathStep_map.
  destruct (pathStep (fun s => s) (all, cur, t) s) as [[a c] l]. apply IH.
Qed.

Lemma buildPaths_map {A : Type} (mk : Segment.t -> A) (segs : list Segment.t) :
  buildPaths mk segs = map (map mk) (pathGroups segs).
Proof.
  unfold pathGroups, buildPaths.
  pose proof (fold_pathStep_map mk segs [] [] (- (1))) as H.
  cbn [map] in H. rewrite H.
  destruct (fold_left (pathStep (fun s => s)) segs ([], [], - (1)))
    as [[a c] l].
  rewrite length_map.
  destruct (0 <? List.length c)%nat; [rewrite map_app|]; reflexivity.
Qed.

Lemma apart_grow (all : list (list Segment.t)) (cur : list Segment.t)
    (s : Segment.t) :
  cur <> [] -> chain apart (all ++ [cur]) -> chain apart (all ++ [cur ++ [s]]).
Proof.
  intros Hne H.
  apply (chain_snoc apart all [] cur) in H. destruct H as [Hall Hlast].
  apply (chain_snoc apart all [] (cur ++ [s])). split; [exact Hall|].
  intros Hn. specialize (Hlast Hn). unfold apart in *.
  destruct cur as [|c cur]; [congruence | exact Hlast].
Qed.

(** The loop keeps its paths non-empty, with neighbours less than 3 s
    apart on a path and at least 3 s between two paths. *)
Lemma paths_invariant (segs : list Segment.t) :
  forall (all : list (list Segment.t)) (cur : list Segment.t),
    cur <> [] -> chain near cur ->
    Forall (fun g => g <> [] /\ chain near g) all ->
    chain apart (all ++ [cur]) ->
    exists all' cur' t',
      fold_left (pathStep (fun s => s)) segs
        (all, cur, Segment.endTime (last cur noSegment)) = (all', cur', t')
      /\ cur' <> [] /\ chain near cur'
      /\ Forall (fun g => g <> [] /\ chain near g) all'
      /\ chain apart (all' ++ [cur'])
      /\ concat all' ++ cur' = concat all ++ cur ++ segs.
Proof.
  induction segs as [|s segs IH]; intros all cur Hne Hcur Hall Hsep.
  - exists all, cur, (Segment.endTime (last cur noSegment)).
    rewrite app_nil_r. repeat split; assumption.
  - cbn [fold_left]. unfold pathStep at 2.
    assert (Hlen : (0 <? List.length cur)%nat = true).
    { destruct cur; [congruence | reflexivity]. }
    rewrite Hlen. cbn [andb].
    destruct (Qltb (Segment.startTime s
                    - Segment.endTime (last cur noSegment)) 3) eqn:Hgap.
    + apply Qltb_lt in Hgap.
      destruct (IH all (cur ++ [s])) as (all' & cur' & t' & Hf & H1 & H2 & H3 & H4 & H5).
      * intros E. apply app_eq_nil in E. destruct E; discriminate.
      * apply (chain_snoc near cur noSegment s). split; [exact Hcur|].
        intros _. exact Hgap.
      * exact Hall.
      * apply apart_grow; assumption.
      * rewrite last_last in Hf.
        exists all', cur', t'. repeat split; try assumption.
        rewrite H5, <- !app_assoc. reflexivity.
    + apply Qltb_ge in Hgap.
      destruct (IH (all ++ [cur]) [s]) as (all' & cur' & t' & Hf & H1 & H2 & H3 & H4 & H5).
      * discriminate.
      * exact I.
      * apply Forall_app. split; [exact Hall|].
        constructor; [split; assumption | constructor].
      * apply (chain_snoc apart (all ++ [cur]) [] [s]). split; [exact Hsep|].
        intros _. rewrite last_last. unfold apart. cbn [hd]. exact Hgap.
      * cbn [last] in Hf.
        exists all', cur', t'. repeat split; try assumption.
        rewrite H5, concat_app. cbn [concat]. rewrite app_nil_r, <- !app_assoc.
        reflexivity.
Qed.

(** X18. The curves of the graph cut the segments into paths without
    losing or reordering any: both the green and the orange line have one
    point per segment, in order; no path is empty; on a path a segment
    starts less than 3 s after its predecessor ends; and between two
    consecutive paths lie at least 3 s. *)
Theorem curve_paths {A : Type} (mkPoint : Segment.t -> A)
    (segments : list Segment.t) :
  buildPaths mkPoint segments = map (map mkPoint) (pathGroups segments)
  /\ concat (pathGroups segments) = segments
  /\ Forall (fun g => g <> [] /\ chain near g) (pathGroups segments)
  /\ chain apart (pathGroups segments).
Proof.
  split; [apply buildPaths_map|].
  destruct segments as [|s segs]; [repeat split; constructor|].
  unfold pathGroups, buildPaths. cbn [fold_left].
  change (pathStep (fun seg => seg) ([], [], - (1)) s)
    with (@nil (list Segment.t), [s], Segment.endTime (last [s] noSegment)).
  destruct (paths_invariant segs [] [s])
    as (all' & cur' & t' & Hf & H1 & H2 & H3 & H4 & H5);
    [discriminate | exact I | constructor | exact I |].
  rewrite Hf.
  assert (Hlen : (0 <? List.length cur')%nat = true).
  { destruct cur'; [congruence | reflexivity]. }
  rewrite Hlen. split; [|split].
  - rewrite concat_app. cbn [concat]. rewrite app_nil_r. exact H5.
  - apply Forall_app. split; [exact H3|].
    constructor; [split; assumption | constructor].
  - exact H4.
Qed.

(** ** The smooth curve *)

Lemma point_eta (p : Point.t) : Point.mk (Point.x p) (Point.y p) = p.
Proof. destruct p. reflexivity. Qed.

(** X19. The smooth curve goes through its points: with fewer than two
    points [drawSmoothCurve] makes no call; otherwise its first call is
    [beginPath], its last is [stroke], and the positions where its calls
    leave the pen are exactly the points, in order, whatever the
    tension. *)
Theorem smooth_curve_through_points (points : list Point.t) (tension : Q) :
  flat_map penAfter (drawSmoothCurve points tension)
  = (if (List.length points <? 2)%nat then [] else points)
  /\ drawSmoothCurve points tension
     = (if (List.length points <? 2)%nat then []
        else BeginPath
             :: removelast (tl (drawSmoothCurve points tension)) ++ [Stroke]).
Proof.
  unfold drawSmoothCurve.
  destruct points as [|p0 [|p1 [|p2 rest]]]; try (split; reflexivity).
  - cbn. rewrite !point_eta. split; reflexivity.
  - set (points := p0 :: p1 :: p2 :: rest).
    change ((List.length points <? 2)%nat) with false.
    change ((List.length points =? 2)%nat) with false.
    cbv iota. split.
    + cbn [flat_map penAfter app]. rewrite flat_map_app. cbn [flat_map penAfter app].
      rewrite app_nil_r, point_eta.
      change (nth 0 points noPoint) with p0.
      transitivity (p0 :: map (fun i => nth i (p1 :: p2 :: rest) noPoint)
                            (seq 0 (List.length (p1 :: p2 :: rest)))).
      * f_equal. rewrite flat_map_concat_map.
        change (List.length points - 1)%nat with (List.length (p1 :: p2 :: rest)).
        generalize (seq 0 (List.length (p1 :: p2 :: rest))). intros l.
        induction l as [|i l IH]; [reflexivity|].
        cbn [map concat]. rewrite IH. unfold bezierAt at 1. cbn [penAfter app].
        rewrite point_eta. rewrite Nat.add_1_r. reflexivity.
      * rewrite map_nth_seq. reflexivity.
    + cbn [tl]. rewrite app_comm_cons, removelast_last. reflexivity.
Qed.

(** ** The note axis *)

Lemma axisRow_isActive (cfg : LabelConfig) (activeNote : option string)
    (i : nat) :
  AxisRow.isActive (axisRow cfg activeNote i)
  = match activeNote with
    | Some a => String.eqb a (noteString (36 + Z.of_nat i))
    | None => false
    end.
Proof.
  unfold axisRow. cbv zeta.
  destruct (showSargam cfg && truthy (rootKey cfg));
    [destruct (negb _)|]; reflexivity.
Qed.

Lemma oneRowPerNote_all : forallb oneRowPerNote midiRange = true.
Proof. vm_compute. reflexivity. Qed.

Lemma noteString_row (m : Z) (i : nat) :
  (31 <= m <= 86)%Z -> (i < 49)%nat ->
  String.eqb (noteString m) (noteString (36 + Z.of_nat i))
  = (m =? 36 + Z.of_nat i)%Z.
Proof.
  intros Hm Hi. pose proof oneRowPerNote_all as Hall.
  rewrite forallb_forall in Hall. specialize (Hall m (midiRange_In m Hm)).
  unfold oneRowPerNote in Hall. rewrite forallb_forall in Hall.
  specialize (Hall i). apply Bool.eqb_prop, Hall, in_seq. lia.
Qed.

(** X20. The axis highlights the note being played and nothing else: for
    segments within the gates, a row of the axis overlay is active at a
    playback time exactly when [checkPitch] finds an event at that time and
    the row's MIDI number is the event's. *)
Theorem axis_highlight (cfg : LabelConfig) (segs : list Segment.t) (time : Q)
    (i : nat) :
  Forall audible segs -> (i < 49)%nat ->
  AxisRow.isActive
    (axisRow cfg (activeNoteAt (stableNotes cfg segs) time) i) = true
  <-> exists e, findActive (stableNotes cfg segs) time = Some e
                /\ Event.midi e = MInt (36 + Z.of_nat i).
Proof.
  intros Hsegs Hi. rewrite axisRow_isActive. unfold activeNoteAt.
  destruct (findActive (stableNotes cfg segs) time) as [e|] eqn:E;
    cbn [option_map].
  - pose proof E as E'. apply find_some in E'. destruct E' as [Hin _].
    destruct (audible_event cfg segs e Hsegs Hin)
      as (m & Hr & _ & Hmidi & Hfull & _).
    rewrite Hfull, (noteString_row m i Hr Hi). split.
    + intros H. apply Z.eqb_eq in H. exists e. split; [reflexivity|].
      rewrite Hmidi, H. reflexivity.
    + intros (e' & He' & Hm'). injection He' as <-.
      rewrite Hmidi in Hm'. injection Hm' as ->. apply Z.eqb_refl.
  - split; [discriminate|]. intros (e & He & _). discriminate.
Qed.

(** Two frames of 0.1 s at 440 Hz, looked up at 0.1 s: row 33 is A4. *)
Lemma axis_highlight_witness :
  AxisRow.isActive
    (axisRow (mkLabelConfig true "C")
       (activeNoteAt
          (stableNotes (mkLabelConfig true "C")
             [Segment.mk 0 (1 # 10) 440; Segment.mk (1 # 10) (1 # 5) 440])
          (1 # 10)) 33) = true
  <-> exists e,
        findActive
          (stableNotes (mkLabelConfig true "C")
             [Segment.mk 0 (1 # 10) 440; Segment.mk (1 # 10) (1 # 5) 440])
          (1 # 10) = Some e
        /\ Event.midi e = MInt (36 + Z.of_nat 33).
Proof.
  apply (axis_highlight (mkLabelConfig true "C")
           [Segment.mk 0 (1 # 10) 440; Segment.mk (1 # 10) (1 # 5) 440]
           (1 # 10) 33).
  - repeat constructor; vm_compute; discriminate.
  - lia.
Defined.

Lemma swaraMode_absent (sargam : bool) (root : string) :
  ~ In root NOTES -> swaraMode (mkLabelConfig sargam root) = false.
Proof.
  intros Hout. unfold swaraMode. cbn [showSargam rootKey]. unfold indexOf.
  rewrite (indexFrom_absent NOTES root 0 Hout). apply andb_false_r.
Qed.

(** X21. The axis and the events name the notes alike: the label of each
    of the 49 rows is the full note name of its MIDI number, and with a
    swara labelling (sargam on, root key a note) it is the label that
    [processRun] gives that MIDI number followed by the octave. *)
Theorem axis_labels (cfg : LabelConfig) (activeNote : option string) :
  map AxisRow.label (axisRows cfg activeNote)
  = map (fun i =>
           let m := (36 + Z.of_nat i)%Z in
           if swaraMode cfg
           then (sargamLabel cfg (MInt m) (noteString m)
                 ++ showOctave (MInt m))%string
           else noteString m)
        (seq 0 49).
Proof.
  destruct cfg as [sargam root].
  destruct (in_dec string_dec root NOTES) as [Hin | Hout].
  - destruct sargam.
    + cbn [In NOTES] in Hin.
      repeat (destruct Hin as [<- | Hin]; [vm_compute; reflexivity|]).
      contradiction.
    + unfold axisRows. rewrite map_map. apply map_ext. intros i.
      reflexivity.
  - rewrite (swaraMode_absent sargam root Hout).
    unfold axisRows. rewrite map_map. apply map_ext. intros i.
    unfold axisRow. cbv zeta. cbn [showSargam rootKey]. unfold indexOf.
    rewrite (indexFrom_absent NOTES root 0 Hout).
    destruct (sargam && truthy root); reflexivity.
Qed.

(** X22. The rows marked as Sa are those of the root key: with a swara
    labelling a row of the axis is marked exactly when its note name is the
    root key, and without one no row is marked. *)
Theorem sa_rows (cfg : LabelConfig) (activeNote : option string) :
  map AxisRow.isSa (axisRows cfg activeNote)
  = map (fun i => swaraMode cfg
                  && String.eqb (noteName (36 + Z.of_nat i)) (rootKey cfg))
        (seq 0 49).
Proof.
  destruct cfg as [sargam root].
  destruct (in_dec string_dec root NOTES) as [Hin | Hout].
  - destruct sargam.
    + cbn [In NOTES] in Hin.
      repeat (destruct Hin as [<- | Hin]; [vm_compute; reflexivity|]).
      contradiction.
    + unfold axisRows. rewrite map_map. apply map_ext. intros i.
      reflexivity.
  - rewrite (swaraMode_absent sargam root Hout).
    unfold axisRows. rewrite map_map. apply map_ext. intros i.
    unfold axisRow. cbv zeta. cbn [showSargam rootKey andb]. unfold indexOf.
    rewrite (indexFrom_absent NOTES root 0 Hout).
    destruct (sargam && truthy root); reflexivity.
Qed.

(** ** The floating badges *)

Lemma badgeKeepsSwara_all :
  forallb (fun root => forallb (badgeKeepsSwara root) midiRange) NOTES = true.
Proof. vm_compute. reflexivity. Qed.

Lemma badgeDropsOctave_all : forallb badgeDropsOctave midiRange = true.
Proof. vm_compute. reflexivity. Qed.

Lemma removeDigits_noteString (m : Z) :
  (31 <= m <= 86)%Z -> removeDigits (noteString m) = noteName m.
Proof.
  intros Hm. pose proof badgeDropsOctave_all as Hall.
  rewrite forallb_forall in Hall. specialize (Hall m (midiRange_In m Hm)).
  apply String.eqb_eq in Hall. exact Hall.
Qed.

Lemma badge_of_note (cfg : LabelConfig) (m : Z) :
  (31 <= m <= 86)%Z ->
  removeDigits (sargamLabel cfg (MInt m) (noteString m))
  = if swaraMode cfg then sargamLabel cfg (MInt m) (noteString m)
    else noteName m.
Proof.
  intros Hm. destruct cfg as [sargam root].
  destruct (in_dec string_dec root NOTES) as [Hin | Hout].
  - destruct sargam.
    + pose proof badgeKeepsSwara_all as Hall. rewrite forallb_forall in Hall.
      specialize (Hall root Hin). rewrite forallb_forall in Hall.
      specialize (Hall m (midiRange_In m Hm)).
      unfold badgeKeepsSwara in Hall. cbv zeta in Hall.
      apply andb_true_iff in Hall. destruct Hall as [Hmode Hlabel].
      rewrite Hmode. apply String.eqb_eq in Hlabel. exact Hlabel.
    + change (swaraMode (mkLabelConfig false root)) with false.
      change (sargamLabel (mkLabelConfig false root) (MInt m) (noteString m))
        with (noteString m).
      apply removeDigits_noteString, Hm.
  - rewrite (swaraMode_absent sargam root Hout).
    rewrite (sargamLabel_fallback sargam root _ _ Hout).
    apply removeDigits_noteString, Hm.
Qed.

(** X23. The floating badges carry the swara or the bare note name: for
    every event of segments within the gates, the badge text is the event's
    label when the labelling is by swara, and otherwise the note name of the
    event's MIDI number without the octave. *)
Theorem badge_text (cfg : LabelConfig) (segs : list Segment.t) :
  Forall audible segs ->
  Forall (fun e =>
            exists m, Event.midi e = MInt m
              /\ badgeLabel e
                 = if swaraMode cfg then Event.label e else noteName m)
         (stableNotes cfg segs).
Proof.
  intros Hsegs. apply Forall_forall. intros e He.
  destruct (audible_event cfg segs e Hsegs He)
    as (m & Hr & _ & Hmidi & _ & Hlabel & Hdisp & _).
  exists m. split; [exact Hmidi|].
  unfold badgeLabel. rewrite Hdisp, Hlabel. apply badge_of_note, Hr.
Qed.

(** Two frames of 0.1 s at 440 Hz, labelled by full note names. *)
Lemma badge_text_witness :
  Forall (fun e =>
            exists m, Event.midi e = MInt m
              /\ badgeLabel e
                 = if swaraMode (mkLabelConfig false "C")
                   then Event.label e else noteName m)
         (stableNotes (mkLabelConfig false "C")
            [Segment.mk 0 (1 # 10) 440; Segment.mk (1 # 10) (1 # 5) 440]).
Proof.
  apply (badge_text (mkLabelConfig false "C")
           [Segment.mk 0 (1 # 10) 440; Segment.mk (1 # 10) (1 # 5) 440]).
  repeat constructor; vm_compute; discriminate.
Defined.
